(** * Int64.js: 64-bit integers held in an 8-byte big-endian Buffer

    A shallow embedding of [src/Int64.js] and the properties of its
    constructor, [_2scomp], [setValue], [valueOf] and [toOctetString].

    Modelling conventions.
    - A node Buffer is a [list Z] of octets living in a heap
      ([gmap loc (list Z)]); an [Int64] object holds a reference into that
      heap and an offset, so that views alias the caller's buffer.
    - Reading a Buffer outside its bounds gives [undefined], which every
      use in the source feeds to a bit operator, where it counts as 0;
      writing outside the bounds is ignored.
    - A JS number is [NaN], an infinity, or a finite value carried as an
      exact rational.  The operations the source applies to fractional
      values ([Math.abs], [% VAL32], [/ VAL32], comparisons) are exact on
      binary64 (a quotient by 2^32 can only lose bits by underflow, far
      below 1, which changes neither [hi > VAL32] nor [hi | 0]); the two
      places where binary64 rounds integers ([parseInt] of many digits and
      the running sum of [valueOf]) go through [round53].  The model has a
      single zero.
    - Variables that only ever hold int32/uint32 results of bit operators
      are carried as [Z].
    - A JS string is a [string] of code units up to 255.  The argument
      shapes of the constructor and of [setValue] are told apart by the
      constructors of [new_arguments] and [arguments]; the two halves of
      [setValue(hi, lo)] are numbers and the offset of a view is an
      integer.
    - A call returns [Normal] with its result or [Throw]s an error; the
      message of the error is not modelled. *)

From Stdlib Require Import ZArith QArith Qabs String Ascii List Lia.
From stdpp Require Import base option list list_numbers gmap.

Local Open Scope Z_scope.

(** ** JS numbers *)

Inductive number : Type :=
| NaN
| Inf (negative : bool)
| Num (q : Q).

Definition of_Z (z : Z) : number := Num (inject_Z z).

(* Useful masks and values for doing bit twiddling *)
Definition MASK31 : Z := 0x7fffffff.
Definition VAL31 : Z := 0x80000000.
Definition MASK32 : Z := 0xffffffff.
Definition VAL32 : Z := 0x100000000.

(** [x < y] on numbers; any comparison with [NaN] is false. *)
Definition js_lt (x y : number) : bool :=
  match x, y with
  | NaN, _ | _, NaN => false
  | Inf nx, Inf ny => nx && negb ny
  | Inf nx, Num _ => nx
  | Num _, Inf ny => negb ny
  | Num a, Num b => Qnum a * QDen b <? Qnum b * QDen a
  end.

Definition Math_abs (x : number) : number :=
  match x with
  | NaN => NaN
  | Inf _ => Inf false
  | Num q => Num (Qabs q)
  end.

(** The integer part of a rational, rounding towards zero. *)
Definition Qtrunc (q : Q) : Z := Z.quot (Qnum q) (QDen q).

(** [x % y]: the remainder of the truncated division, with the sign of [x]. *)
Definition js_rem (x y : number) : number :=
  match x, y with
  | NaN, _ | _, NaN | Inf _, _ => NaN
  | Num a, Inf _ => Num a
  | Num a, Num b =>
      if Qnum b =? 0 then NaN
      else Num (a - b * inject_Z (Qtrunc (a / b)))%Q
  end.

(** [x / y]. *)
Definition js_div (x y : number) : number :=
  match x, y with
  | NaN, _ | _, NaN => NaN
  | Inf _, Inf _ => NaN
  | Inf nx, Num b => Inf (xorb nx (Qnum b <? 0))
  | Num _, Inf _ => Num 0%Q
  | Num a, Num b =>
      if Qnum b =? 0 then
        (if Qnum a =? 0 then NaN else Inf (Qnum a <? 0))
      else Num (a / b)%Q
  end.

(** ToInt32 and ToUint32 of ECMA-262: truncate, then wrap modulo 2^32. *)
Definition ToUint32 (x : number) : Z :=
  match x with
  | NaN | Inf _ => 0
  | Num q => Qtrunc q mod 2 ^ 32
  end.

Definition ToInt32 (x : number) : Z :=
  let u := ToUint32 x in
  if 2 ^ 31 <=? u then u - 2 ^ 32 else u.

(** Round an integer to the nearest integer with a 53-bit significand,
    ties to even: the value a binary64 holds for it (below the overflow
    threshold). *)
Definition round53 (z : Z) : Z :=
  let a := Z.abs z in
  let e := Z.log2 a - 52 in
  if e <=? 0 then z
  else
    let q := Z.shiftr a e in
    let r := Z.land a (Z.ones e) in
    let half := 2 ^ (e - 1) in
    let q' := if (half <? r) || ((half =? r) && Z.odd q) then q + 1 else q in
    Z.sgn z * Z.shiftl q' e.

(** The Number value of a mathematical integer. *)
Definition number_of_integer (z : Z) : number :=
  let r := round53 z in
  if 2 ^ 1024 <=? Z.abs r then Inf (z <? 0) else of_Z r.

(** ** Buffers and the heap *)

Definition loc := positive.

Abbreviation heap := (gmap loc (list Z)).

(** [b[i]]: the octet at index [i], or [undefined]. *)
Definition get (b : list Z) (i : Z) : option Z :=
  if 0 <=? i then b !! Z.to_nat i else None.

(** ToInt32 of [b[i]]: [undefined] converts to [NaN] and then to 0. *)
Definition elem (b : list Z) (i : Z) : Z := default 0 (get b i).

(** [b[i] = v]: ignored outside the bounds of the Buffer. *)
Definition set (b : list Z) (i : Z) (v : Z) : list Z :=
  if 0 <=? i then <[Z.to_nat i := v]> b else b.

(** The contents of the Buffer at [l]. *)
Definition buf (h : heap) (l : loc) : list Z := default [] (h !! l).

(** [new Buffer(n)]: a fresh Buffer whose [n] octets are whatever the
    memory [mem] held. *)
Definition new_Buffer (mem : nat → Z) (n : nat) (h : heap) : loc * heap :=
  let l := fresh (dom h) in
  (l, <[l := (λ i, mem i mod 256) <$> seq 0 n]> h).

Record Int64 : Type := mkInt64 { buffer : loc; offset : Z }.

(** An octet is a number from 0 to 255. *)
Definition octet (v : Z) : Prop := 0 ≤ v < 256.
Definition octets (b : list Z) : Prop := Forall octet b.

(** ** [_2scomp]: in-place two's complement *)

(** One iteration of the loop of [_2scomp] at index [i]. *)
Definition _2scomp_step (st : list Z * Z) (i : Z) : list Z * Z :=
  let '(b, carry) := st in
  let v := Z.lxor (elem b i) 0xff + carry in
  (set b i (Z.land v 0xff), Z.shiftr v 8).

(** [for (var i = o + 7; i >= o; i--)] over the Buffer contents. *)
Definition _2scomp_buf (b : list Z) (o : Z) : list Z :=
  fst (foldl _2scomp_step (b, 1) (reverse (seqZ o 8))).

Definition _2scomp (h : heap) (this : Int64) : heap :=
  alter (λ b, _2scomp_buf b (offset this)) (buffer this) h.


(** ** Strings

    A JS string is carried as a [string] whose characters are its code
    units (those from 0 to 255). *)

Definition code (c : ascii) : Z := Z.of_N (N_of_ascii c).

Definition len (s : string) : Z := Z.of_nat (String.length s).

(** [s.substr(start, length)]; [length] is [None] when omitted. *)
Definition substr (s : string) (start : Z) (length : option Z) : string :=
  let size := len s in
  let from := if start <? 0 then Z.max (size + start) 0 else Z.min start size in
  let count :=
    match length with
    | None => size
    | Some n => Z.min (Z.max n 0) size
    end in
  let to := Z.min (from + count) size in
  substring (Z.to_nat from) (Z.to_nat (to - from)) s.

(** [s.replace(/^0x/, '')] *)
Definition strip_0x (s : string) : string :=
  match s with
  | String "0" (String "x" rest) => rest
  | _ => s
  end.

(** White space and line terminators among the code units up to 255. *)
Definition is_white (c : ascii) : bool :=
  let n := code c in
  ((9 <=? n) && (n <=? 13)) || (n =? 32) || (n =? 160).

Fixpoint trim_start (s : string) : string :=
  match s with
  | String c rest => if is_white c then trim_start rest else s
  | EmptyString => s
  end.

(** The value of a radix-16 digit. *)
Definition hex_digit (c : ascii) : option Z :=
  let n := code c in
  if (48 <=? n) && (n <=? 57) then Some (n - 48)
  else if (97 <=? n) && (n <=? 102) then Some (n - 87)
  else if (65 <=? n) && (n <=? 70) then Some (n - 55)
  else None.

(** The radix-16 digits at the front of [s], most significant first. *)
Fixpoint leading_digits (s : string) : list Z :=
  match s with
  | String c rest =>
      match hex_digit c with
      | Some d => d :: leading_digits rest
      | None => []
      end
  | EmptyString => []
  end.

Definition digits_value (ds : list Z) : Z := foldl (λ acc d, acc * 16 + d) 0 ds.

(** An optional sign at the front of [s]. *)
Definition strip_sign (s : string) : Z * string :=
  match s with
  | String "-" rest => (-1, rest)
  | String "+" rest => (1, rest)
  | _ => (1, s)
  end.

(** An optional [0x] or [0X] at the front of [s]. *)
Definition strip_radix_prefix (s : string) : string :=
  match s with
  | String "0" (String "x" rest) | String "0" (String "X" rest) => rest
  | _ => s
  end.

(** [parseInt(s, 16)]: skip white space, take a sign, skip [0x] or [0X],
    read the longest run of digits; [NaN] when there is none. *)
Definition parseInt16 (s : string) : number :=
  let '(sign, s) := strip_sign (trim_start s) in
  match leading_digits (strip_radix_prefix s) with
  | [] => NaN
  | ds => number_of_integer (sign * digits_value ds)
  end.

(** ** [setValue] *)

(** What a single argument can be: [VOther] stands for every value whose
    [typeof] is neither ['number'] nor ['string']. *)
Inductive value : Type :=
| VNumber (n : number)
| VString (s : string)
| VOther.

(** [setValue(x)] or [setValue(hi, lo)], the latter as two numbers. *)
Inductive arguments : Type :=
| Args1 (a1 : value)
| Args2 (a1 a2 : number).

Inductive error : Type :=
| RangeError
| Error.

Inductive completion (A : Type) : Type :=
| Normal (a : A)
| Throw (e : error).
Arguments Normal {A} a.
Arguments Throw {A} e.

(** The [if (arguments.length == 1)] block: [negate], [hi] and [lo] as
    they stand before the bytes are copied. *)
Definition setValue_args (args : arguments) : completion (bool * number * number) :=
  match args with
  | Args1 (VNumber hi) =>
      let negate := js_lt hi (of_Z 0) in
      let hi := Math_abs hi in
      let lo := js_rem hi (of_Z VAL32) in
      let hi := js_div hi (of_Z VAL32) in
      if js_lt (of_Z VAL32) hi then Throw RangeError
      else Normal (negate, of_Z (Z.lor (ToInt32 hi) 0), lo)
  | Args1 (VString hi) =>
      let hi := strip_0x hi in
      let lo := substr hi (-8) None in
      let hi := if 8 <? len hi then substr hi 0 (Some (len hi - 8)) else EmptyString in
      let hi := parseInt16 hi in
      let lo := parseInt16 lo in
      Normal (false, hi, lo)
  | Args1 VOther => Throw Error
  | Args2 hi lo => Normal (false, hi, lo)
  end.

(** One iteration of the copy loop at index [i]. *)
Definition copy_step (o : Z) (hi : number) (st : list Z * number) (i : Z)
  : list Z * number :=
  let '(b, lo) := st in
  (set b (o + i) (Z.land (ToInt32 lo) 0xff),
   if i =? 4 then hi else of_Z (Z.shiftr (ToUint32 lo) 8)).

(** [for (var i = 7; i >= 0; i--)] over the Buffer contents. *)
Definition copy_bytes (b : list Z) (o : Z) (hi lo : number) : list Z :=
  fst (foldl (copy_step o hi) (b, lo) (reverse (seqZ 0 8))).

Definition setValue (h : heap) (this : Int64) (args : arguments) : completion heap :=
  match setValue_args args with
  | Throw e => Throw e
  | Normal (negate, hi, lo) =>
      let h := alter (λ b, copy_bytes b (offset this) hi lo) (buffer this) h in
      Normal (if negate : bool then _2scomp h this else h)
  end.

(** ** The constructor *)

(** [new Int64(buffer[, offset])] when the first argument is a Buffer
    (the offset an integer, [None] when omitted); every other shape goes
    to [setValue]. *)
Inductive new_arguments : Type :=
| NewView (a1 : loc) (a2 : option Z)
| NewValue (args : arguments).

Definition Int64_new (mem : nat → Z) (h : heap) (a : new_arguments)
  : completion (heap * Int64) :=
  match a with
  | NewView a1 a2 =>
      Normal (h, {| buffer := a1; offset := default 0 a2 |})
  | NewValue args =>
      let '(l, h) := new_Buffer mem 8 h in
      let this := {| buffer := l; offset := 0 |} in
      match setValue h this args with
      | Throw e => Throw e
      | Normal h => Normal (h, this)
      end
  end.

(** ** [valueOf] *)

(* Max integer value that JS can accurately represent *)
Definition MAX_INT : Z := 2 ^ 53.

(* Min integer value that JS can accurately represent *)
Definition MIN_INT : Z := - 2 ^ 53.

(** One iteration of the loop of [valueOf]: [i] counts up and [ii = o + 7 - i]
    counts down. *)
Definition valueOf_step (b : list Z) (o : Z) (negate : Z) (st : Z * Z) (i : Z) : Z * Z :=
  let '(x, carry) := st in
  let ii := o + 7 - i in
  let v := elem b ii in
  let '(v, carry) :=
    if negate =? 0 then (v, carry)
    else let v := Z.lxor v 0xff + carry in (v, Z.shiftr v 8) in
  (round53 (x + Z.land v 0xff * 256 ^ i), carry).

Definition valueOf (h : heap) (this : Int64) : number :=
  let b := buf h (buffer this) in
  let o := offset this in
  let negate := Z.land (elem b 0) 0x80 in
  let '(x, _) := foldl (valueOf_step b o negate) (0, 1) (seqZ 0 8) in
  if MAX_INT <=? x then Inf (negb (negate =? 0))
  else if negate =? 0 then of_Z x else of_Z (- x).

(** ** [toOctetString] *)

Definition hex_char (d : Z) : ascii :=
  ascii_of_N (Z.to_N (if d <? 10 then 48 + d else 87 + d)).

Fixpoint toString16_digits (fuel : nat) (i : Z) (acc : string) : string :=
  let acc := String (hex_char (i mod 16)) acc in
  match fuel with
  | O => acc
  | S fuel => if i / 16 =? 0 then acc else toString16_digits fuel (i / 16) acc
  end.

(** [i.toString(16)] for an integer [i >= 0]. *)
Definition toString16 (i : Z) : string :=
  toString16_digits (Z.to_nat (Z.log2 i)) i EmptyString.

(* Map for converting hex octets to strings *)
Definition _HEX : list string :=
  (λ i, append (if 0xF <? i then EmptyString else String "0" EmptyString) (toString16 i))
    <$> seqZ 0 256.

(** [out.join(sep)]: [undefined] entries print as the empty string. *)
Fixpoint join (sep : string) (out : list (option string)) : string :=
  match out with
  | [] => EmptyString
  | [x] => default EmptyString x
  | x :: rest => append (default EmptyString x) (append sep (join sep rest))
  end.

Definition toOctetString (h : heap) (this : Int64) (sep : option string) : string :=
  let b := buf h (buffer this) in
  let o := offset this in
  let out := (λ i, v ← get b (o + i); if 0 <=? v then _HEX !! Z.to_nat v else None) <$> seqZ 0 8 in
  join (default EmptyString sep) out.

(** [s.toLowerCase()] on code units up to 255. *)
Definition lower (c : ascii) : ascii :=
  let n := code c in
  if ((65 <=? n) && (n <=? 90)) || ((192 <=? n) && (n <=? 222) && negb (n =? 215))
  then ascii_of_N (Z.to_N (n + 32))
  else c.

Fixpoint toLowerCase (s : string) : string :=
  match s with
  | EmptyString => EmptyString
  | String c rest => String (lower c) (toLowerCase rest)
  end.

(** ** Arithmetic reading of the octets *)

(** The two passes of the complement over one octet, with a carry in. *)
Definition comp_octet (c x : Z) : Z * Z :=
  let v := Z.lxor x 0xff + c in (Z.land v 0xff, Z.shiftr v 8).

(** The complement over a list of octets, least significant first. *)
Fixpoint comp (c : Z) (l : list Z) : list Z :=
  match l with
  | [] => []
  | x :: l => (comp_octet c x).1 :: comp (comp_octet c x).2 l
  end.

Fixpoint comp_carry (c : Z) (l : list Z) : Z :=
  match l with
  | [] => c
  | x :: l => comp_carry (comp_octet c x).2 l
  end.

(** The octets of a 32-bit half, most significant first. *)
Definition half_octets (x : number) : list Z :=
  let u := ToUint32 x in
  [u / 2 ^ 24 mod 256; u / 2 ^ 16 mod 256; u / 2 ^ 8 mod 256; u mod 256].

(** The running sum over octets given least significant first, from
    position [i] on. *)
Fixpoint acc_sum (i x : Z) (l : list Z) : Z :=
  match l with
  | [] => x
  | v :: l => acc_sum (i + 1) (round53 (x + v * 256 ^ i)) l
  end.

(** The number a list of octets writes in base 256, least significant first. *)
Fixpoint le_value (l : list Z) : Z :=
  match l with
  | [] => 0
  | v :: l => v + 256 * le_value l
  end.

(** The unsigned number the eight octets [mid] write, most significant first. *)
Definition be_value (mid : list Z) : Z := le_value (reverse mid).

(** The signed 64-bit integer the eight octets encode in two's complement. *)
Definition int64_value (mid : list Z) : Z :=
  let u := be_value mid in if 2 ^ 63 <=? u then u - 2 ^ 64 else u.

(** The eight octets [setValue] leaves in the region. *)
Definition stored_octets (negate : bool) (hi lo : number) : list Z :=
  let b := half_octets hi ++ half_octets lo in
  if negate then reverse (comp 1 (reverse b)) else b.

(** [x === y] on numbers. *)
Definition strict_equal (x y : number) : Prop :=
  match x, y with
  | Num a, Num b => Qeq a b
  | Inf nx, Inf ny => nx = ny
  | _, _ => False
  end.

(** The high half [hi = abs(n) / 2^32] exceeds 2^32. *)
Definition high_half_exceeds (n : number) : Prop :=
  match n with
  | NaN => False
  | Inf _ => True
  | Num q => (inject_Z VAL32 < Qabs q / inject_Z VAL32)%Q
  end.

(** The two radix-16 digits of an octet. *)
Definition hex_octet (v : Z) : string :=
  String (hex_char (v / 16)) (String (hex_char (v mod 16)) EmptyString).

(** The four octets of a 32-bit value, most significant first. *)
Definition int32_octets (x : Z) : list Z :=
  [Z.land (Z.shiftr x 24) 0xff; Z.land (Z.shiftr x 16) 0xff;
   Z.land (Z.shiftr x 8) 0xff; Z.land x 0xff].

(** A string of radix-16 digits only. *)
Definition hex_string (s : string) : Prop :=
  Forall (λ c, is_Some (hex_digit c)) (list_ascii_of_string s).

(** ** [toString] and [inspect] *)

(** The digits of an integer [i >= 0] in the given radix, most significant
    first, with the digits above 9 written a-z. *)
Fixpoint radix_digits (radix : Z) (fuel : nat) (i : Z) (acc : string) : string :=
  let acc := String (hex_char (i mod radix)) acc in
  match fuel with
  | O => acc
  | S fuel => if i / radix =? 0 then acc else radix_digits radix fuel (i / radix) acc
  end.

(** [x.toString(radix)] for a radix from 2 to 36, on the numbers [valueOf]
    returns: the infinities and the integers (the fraction of a finite
    number, which [valueOf] never produces, is not printed). *)
Definition Number_toString (x : number) (radix : Z) : string :=
  match x with
  | NaN => "NaN"
  | Inf false => "Infinity"
  | Inf true => "-Infinity"
  | Num q =>
      let z := Qtrunc q in
      let digits := radix_digits radix (Z.to_nat (Z.log2 (Z.abs z))) (Z.abs z) EmptyString in
      if z <? 0 then String "-" digits else digits
  end.

(** [this.valueOf().toString(radix || 10)]: [Number.prototype.toString]
    throws a RangeError for a radix outside 2..36; [radix] is [None] when
    omitted. *)
Definition toString (h : heap) (this : Int64) (radix : option Z) : completion string :=
  let radix := match radix with
               | None => 10
               | Some r => if r =? 0 then 10 else r
               end in
  if (2 <=? radix) && (radix <=? 36)
  then Normal (Number_toString (valueOf h this) radix)
  else Throw RangeError.

(** ['[Int64 value:' + this + ' octets:' + this.toOctetString(' ') + ']']:
    the concatenation converts [this] through [valueOf] and prints the
    number in radix 10. *)
Definition inspect (h : heap) (this : Int64) : string :=
  append "[Int64 value:"
    (append (Number_toString (valueOf h this) 10)
       (append " octets:" (append (toOctetString h this (Some " "%string)) "]"))).

(** ** Further reference definitions *)

(** The eight octets of the Buffer contents [b] from offset [o] on. *)
Definition region (b : list Z) (o : Z) : list Z := take 8 (drop (Z.to_nat o) b).

(** The values of the characters of a hex string. *)
Definition digit_values (cs : list ascii) : list Z :=
  (λ c, default 0 (hex_digit c)) <$> cs.

(** An unsigned 64-bit value read as two's complement. *)
Definition signed64 (u : Z) : Z := if 2 ^ 63 <=? u then u - 2 ^ 64 else u.

(** What [valueOf] makes of a signed 64-bit value. *)
Definition saturate (v : Z) : number :=
  if MAX_INT <=? Z.abs v then Inf (v <? 0) else of_Z v.

(** * Properties *)

(** Name the eight octets of a region of length 8. *)
Ltac eight_octets mid Hlen :=
  do 9 (destruct mid as [|? mid]; try discriminate Hlen); clear Hlen.

(** One hypothesis per octet of a list that is written out. *)
Ltac split_octets :=
  unfold octets in *;
  repeat match goal with
    | H : Forall octet (_ :: _) |- _ => apply Forall_cons in H as [? H]
    end.

(** Read a list that is written out at an index that is written out. *)
Ltac read_index f :=
  repeat match goal with
    | |- context [f ?l ?i] => let v := eval cbv in (f l i) in change (f l i) with v
    end.

(** ** Octets *)

Lemma octet_cases (f : Z → bool) :
  forallb f (seqZ 0 256) = true → ∀ x, octet x → f x = true.
Proof.
  intros Hall x Hx. rewrite forallb_forall in Hall. apply Hall.
  apply list_elem_of_In, elem_of_seqZ. unfold octet in Hx. lia.
Qed.

Lemma comp_octet_twice c x :
  octet x → c = 0 ∨ c = 1 →
  let '(y, c') := comp_octet c x in
  comp_octet c y = (x, c') ∧ octet y ∧ (c' = 0 ∨ c' = 1).
Proof.
  intros Hx Hc.
  pose (f c x := let '(y, c') := comp_octet c x in
     (Z.eqb (comp_octet c y).1 x) && (Z.eqb (comp_octet c y).2 c') && (0 <=? y) && (y <? 256)
     && ((c' =? 0) || (c' =? 1))).
  assert (Hf : f c x = true).
  { destruct Hc as [-> | ->]; apply octet_cases; auto; vm_compute; reflexivity. }
  unfold f in Hf. destruct (comp_octet c x) as [y c'].
  destruct (comp_octet c y) as [x' c''] eqn:E. simpl in Hf.
  unfold octet.
  repeat (apply andb_prop in Hf as [Hf ?]).
  apply orb_prop in H.
  repeat split; try lia. f_equal; lia.
Qed.

(** ** Reading and writing a Buffer *)

Lemma elem_middle (pre post : list Z) x :
  elem (pre ++ x :: post) (Z.of_nat (length pre)) = x.
Proof.
  unfold elem, get. rewrite Nat2Z.id.
  destruct (Z.leb_spec 0 (Z.of_nat (length pre))); [|lia].
  by rewrite list_lookup_middle.
Qed.

Lemma set_middle (pre post : list Z) x v :
  set (pre ++ x :: post) (Z.of_nat (length pre)) v = pre ++ v :: post.
Proof.
  unfold set. rewrite Nat2Z.id.
  destruct (Z.leb_spec 0 (Z.of_nat (length pre))); [|lia].
  replace (length pre) with (length pre + 0)%nat at 1 by lia.
  by rewrite insert_app_r.
Qed.

Lemma reverse_seqZ_S o (n : nat) :
  reverse (seqZ o (Z.of_nat (S n))) = (o + Z.of_nat n) :: reverse (seqZ o (Z.of_nat n)).
Proof. by rewrite seqZ_S, reverse_snoc. Qed.

Lemma _2scomp_fold (pre mid post : list Z) c :
  foldl _2scomp_step (pre ++ mid ++ post, c)
    (reverse (seqZ (Z.of_nat (length pre)) (Z.of_nat (length mid))))
  = (pre ++ reverse (comp c (reverse mid)) ++ post, comp_carry c (reverse mid)).
Proof.
  revert post c. induction mid as [|x mid IH] using rev_ind; intros post c.
  { done. }
  rewrite length_app, Nat.add_1_r, reverse_seqZ_S. simpl.
  rewrite reverse_snoc. simpl.
  replace (pre ++ (mid ++ [x]) ++ post) with ((pre ++ mid) ++ x :: post)
    by by rewrite <- !app_assoc.
  replace (Z.of_nat (length pre) + Z.of_nat (length mid))
    with (Z.of_nat (length (pre ++ mid))) by (rewrite length_app; lia).
  rewrite elem_middle, set_middle.
  change (Z.land (Z.lxor x 255 + c) 255) with (comp_octet c x).1.
  change (Z.shiftr (Z.lxor x 255 + c) 8) with (comp_octet c x).2.
  rewrite <- app_assoc, (IH (_ :: post)).
  by rewrite reverse_cons, <- !app_assoc.
Qed.

Lemma comp_twice c l :
  octets l → c = 0 ∨ c = 1 →
  comp c (comp c l) = l ∧ octets (comp c l) ∧ comp_carry c (comp c l) = comp_carry c l.
Proof.
  unfold octets. intros Hl. revert c. induction Hl as [|x l Hx Hl IH]; intros c Hc.
  { done. }
  pose proof (comp_octet_twice c x Hx Hc) as H.
  cbn [comp comp_carry].
  destruct (comp_octet c x) as [y c'] eqn:E. destruct H as (E' & Hy & Hc').
  cbn [fst snd]. rewrite E'. cbn [fst snd]. destruct (IH c' Hc') as (-> & ? & ->).
  split; [done|]. split; [by constructor | done].
Qed.

Lemma region_split (b : list Z) o :
  0 ≤ o → o + 8 ≤ Z.of_nat (length b) →
  ∃ pre mid post, b = pre ++ mid ++ post ∧ o = Z.of_nat (length pre) ∧ length mid = 8%nat.
Proof.
  intros Ho Hb. exists (take (Z.to_nat o) b), (take 8 (drop (Z.to_nat o) b)),
    (drop 8 (drop (Z.to_nat o) b)).
  rewrite !take_drop. split; [done|].
  rewrite !length_take, length_drop. lia.
Qed.

Lemma octets_app (l k : list Z) : octets (l ++ k) ↔ octets l ∧ octets k.
Proof. apply Forall_app. Qed.

Lemma octets_reverse (l : list Z) : octets (reverse l) ↔ octets l.
Proof. unfold octets. by rewrite Forall_reverse. Qed.

Lemma _2scomp_buf_region (pre mid post : list Z) :
  length mid = 8%nat →
  _2scomp_buf (pre ++ mid ++ post) (Z.of_nat (length pre))
  = pre ++ reverse (comp 1 (reverse mid)) ++ post.
Proof.
  intros Hmid. unfold _2scomp_buf.
  change 8 with (Z.of_nat 8). rewrite <- Hmid. by rewrite _2scomp_fold.
Qed.

Lemma length_comp c l : length (comp c l) = length l.
Proof. revert c. induction l; intros; simpl; [done | by rewrite IHl]. Qed.

Lemma _2scomp_buf_twice (b : list Z) o :
  octets b → 0 ≤ o → o + 8 ≤ Z.of_nat (length b) →
  _2scomp_buf (_2scomp_buf b o) o = b.
Proof.
  intros Hb Ho Hlen.
  destruct (region_split b o Ho Hlen) as (pre & mid & post & -> & -> & Hmid).
  apply octets_app in Hb as [_ Hb]. apply octets_app in Hb as [Hb _].
  rewrite _2scomp_buf_region by done.
  rewrite _2scomp_buf_region by (by rewrite length_reverse, length_comp, length_reverse).
  rewrite reverse_involutive.
  destruct (comp_twice 1 (reverse mid)) as (-> & _); [by apply octets_reverse | by right |].
  by rewrite reverse_involutive.
Qed.

(** C4: the in-place two's complement is an involution: on every Int64
    whose eight octets lie within its Buffer, applying [_2scomp] twice
    restores the octets, and the heap, as they were. *)
Theorem twos_complement_involutive (h : heap) (this : Int64) (b : list Z) :
  h !! buffer this = Some b → octets b →
  0 ≤ offset this → offset this + 8 ≤ Z.of_nat (length b) →
  _2scomp (_2scomp h this) this = h.
Proof.
  intros Hh Hb Ho Hlen. unfold _2scomp. apply map_eq. intros l.
  destruct (decide (l = buffer this)) as [-> | Hne].
  - rewrite !lookup_alter_eq, Hh. simpl. by rewrite _2scomp_buf_twice.
  - by rewrite !lookup_alter_ne.
Qed.

Lemma twos_complement_involutive_witness :
  let b := [0; 0; 0; 0; 0; 0; 0; 42] in
  let h : heap := {[ 1%positive := b ]} in
  let this := {| buffer := 1%positive; offset := 0 |} in
  h !! buffer this = Some b ∧ octets b
  ∧ 0 ≤ offset this ∧ offset this + 8 ≤ Z.of_nat (length b)
  ∧ _2scomp (_2scomp h this) this = h.
Proof.
  intros b h this.
  assert (Hh : h !! buffer this = Some b) by reflexivity.
  assert (Hb : octets b) by (repeat constructor; unfold octet; lia).
  assert (Ho : 0 ≤ offset this) by (simpl; lia).
  assert (Hlen : offset this + 8 ≤ Z.of_nat (length b)) by (simpl; lia).
  repeat (split; [assumption|]).
  exact (twos_complement_involutive h this b Hh Hb Ho Hlen).
Defined.

Example twos_complement_of_42 :
  _2scomp_buf [0; 0; 0; 0; 0; 0; 0; 42] 0 = [255; 255; 255; 255; 255; 255; 255; 214].
Proof. reflexivity. Qed.

(** ** Bit operators as arithmetic *)

Lemma land_0xff a : Z.land a 0xff = a mod 256.
Proof. change 0xff with (Z.ones 8). by rewrite Z.land_ones. Qed.

Lemma shiftr_8 a : Z.shiftr a 8 = a / 256.
Proof. by rewrite Z.shiftr_div_pow2. Qed.

Lemma ToUint32_range x : 0 ≤ ToUint32 x < 2 ^ 32.
Proof. destruct x; simpl; try lia. apply Z.mod_pos_bound. lia. Qed.

Lemma Qtrunc_inject_Z z : Qtrunc (inject_Z z) = z.
Proof. unfold Qtrunc. simpl. apply Z.quot_1_r. Qed.

Lemma ToUint32_of_Z z : ToUint32 (of_Z z) = z mod 2 ^ 32.
Proof. unfold of_Z, ToUint32. by rewrite Qtrunc_inject_Z. Qed.

Lemma ToInt32_land_0xff x : Z.land (ToInt32 x) 0xff = ToUint32 x mod 256.
Proof.
  rewrite land_0xff. unfold ToInt32. pose proof (ToUint32_range x).
  destruct (2 ^ 31 <=? ToUint32 x); [|done].
  replace (ToUint32 x - 2 ^ 32) with (ToUint32 x + (- 2 ^ 24) * 256) by lia.
  by rewrite Z.mod_add.
Qed.

Lemma copy_step_eq o hi b x i :
  copy_step o hi (b, x) i
  = (set b (o + i) (ToUint32 x mod 256),
     if i =? 4 then hi else of_Z (ToUint32 x / 256)).
Proof. unfold copy_step. by rewrite ToInt32_land_0xff, shiftr_8. Qed.

Lemma ToUint32_of_Z_div u d :
  0 ≤ u < 2 ^ 32 → 0 < d → ToUint32 (of_Z (u / d)) = u / d.
Proof.
  intros Hu Hd. rewrite ToUint32_of_Z.
  apply Z.mod_small. split; [apply Z.div_pos; lia|].
  apply Z.div_lt_upper_bound; nia.
Qed.

Lemma set_app_r (pre l : list Z) i v :
  0 ≤ i → set (pre ++ l) (Z.of_nat (length pre) + i) v = pre ++ set l i v.
Proof.
  intros Hi. unfold set.
  destruct (Z.leb_spec 0 (Z.of_nat (length pre) + i)); [|lia].
  destruct (Z.leb_spec 0 i); [|lia].
  replace (Z.to_nat (Z.of_nat (length pre) + i)) with (length pre + Z.to_nat i)%nat by lia.
  apply insert_app_r.
Qed.

Lemma elem_app_r (pre l : list Z) i :
  0 ≤ i → elem (pre ++ l) (Z.of_nat (length pre) + i) = elem l i.
Proof.
  intros Hi. unfold elem, get.
  destruct (Z.leb_spec 0 (Z.of_nat (length pre) + i)); [|lia].
  destruct (Z.leb_spec 0 i); [|lia].
  replace (Z.to_nat (Z.of_nat (length pre) + i)) with (length pre + Z.to_nat i)%nat by lia.
  by rewrite lookup_app_r, Nat.add_sub' by lia.
Qed.

Lemma copy_bytes_region (pre mid post : list Z) hi lo :
  length mid = 8%nat →
  copy_bytes (pre ++ mid ++ post) (Z.of_nat (length pre)) hi lo
  = pre ++ (half_octets hi ++ half_octets lo) ++ post.
Proof.
  intros Hmid.
  eight_octets mid Hmid.
  unfold copy_bytes. change (reverse (seqZ 0 8)) with [7; 6; 5; 4; 3; 2; 1; 0].
  cbn [foldl]. rewrite !copy_step_eq. cbn [Z.eqb Pos.eqb fst].
  rewrite !set_app_r by lia. f_equal.
  pose proof (ToUint32_range hi) as Hhi. pose proof (ToUint32_range lo) as Hlo.
  repeat match goal with
    | |- context [ToUint32 (of_Z (ToUint32 ?x / ?d))] =>
        rewrite (ToUint32_of_Z_div (ToUint32 x) d) by lia;
        rewrite ?Z.div_div by lia
    end.
  reflexivity.
Qed.

(** ** The sum of [valueOf] *)

Lemma octet_land_0xff v : octet v → Z.land v 0xff = v.
Proof. intros Hv. rewrite land_0xff. by apply Z.mod_small. Qed.

Lemma valueOf_step_region (pre mid post : list Z) negate x c i :
  0 ≤ i ≤ 7 →
  valueOf_step (pre ++ mid ++ post) (Z.of_nat (length pre)) negate (x, c) i
  = let v := elem (mid ++ post) (7 - i) in
    if negate =? 0 then (round53 (x + Z.land v 0xff * 256 ^ i), c)
    else (round53 (x + (comp_octet c v).1 * 256 ^ i), (comp_octet c v).2).
Proof.
  intros Hi. unfold valueOf_step.
  replace (Z.of_nat (length pre) + 7 - i) with (Z.of_nat (length pre) + (7 - i)) by lia.
  rewrite elem_app_r by lia. cbn zeta. by destruct (negate =? 0).
Qed.

Lemma valueOf_fold_region (pre mid post : list Z) negate :
  length mid = 8%nat → octets mid →
  foldl (valueOf_step (pre ++ mid ++ post) (Z.of_nat (length pre)) negate) (0, 1) (seqZ 0 8)
  = if negate =? 0 then (acc_sum 0 0 (reverse mid), 1)
    else (acc_sum 0 0 (comp 1 (reverse mid)), comp_carry 1 (reverse mid)).
Proof.
  intros Hmid Hoct.
  eight_octets mid Hmid.
  split_octets.
  change (seqZ 0 8) with [0; 1; 2; 3; 4; 5; 6; 7].
  cbn [foldl].
  destruct (negate =? 0) eqn:Hneg;
    repeat (rewrite valueOf_step_region by lia; rewrite Hneg; cbn zeta);
    read_index elem.
  all: unfold reverse; cbn [rev_append acc_sum comp comp_carry];
    change (0 + 1) with 1; change (1 + 1) with 2; change (2 + 1) with 3;
    change (3 + 1) with 4; change (4 + 1) with 5; change (5 + 1) with 6;
    change (6 + 1) with 7.
  - rewrite !octet_land_0xff by done. reflexivity.
  - reflexivity.
Qed.

Lemma round53_small z : Z.abs z < 2 ^ 53 → round53 z = z.
Proof.
  intros Hz. unfold round53.
  destruct (Z.leb_spec (Z.log2 (Z.abs z) - 52) 0) as [|He]; [done|].
  exfalso. destruct (Z.eq_dec (Z.abs z) 0) as [E|E].
  - rewrite E in He. simpl in He. lia.
  - apply Z.log2_lt_pow2 in Hz; lia.
Qed.

Lemma round53_large z : 2 ^ 53 ≤ z → 2 ^ 53 ≤ round53 z.
Proof.
  intros Hz. unfold round53.
  destruct (Z.leb_spec (Z.log2 (Z.abs z) - 52) 0) as [|He]; [done|].
  rewrite Z.abs_eq in * by lia. rewrite Z.sgn_pos by lia.
  set (e := Z.log2 z - 52) in *.
  rewrite Z.shiftr_div_pow2, Z.shiftl_mul_pow2 by lia.
  assert (Hq : 2 ^ 52 ≤ z / 2 ^ e).
  { apply Z.div_le_lower_bound; [lia|].
    rewrite <- Z.pow_add_r by lia. replace (e + 52) with (Z.log2 z) by lia.
    apply Z.log2_spec. lia. }
  assert (He2 : 2 ^ 1 ≤ 2 ^ e) by (apply Z.pow_le_mono_r; lia).
  set (q' := if _ : bool then _ else _).
  assert (Hq' : 2 ^ 52 ≤ q').
  { subst q'. destruct (_ || _); lia. }
  nia.
Qed.

Lemma le_value_nonneg l : octets l → 0 ≤ le_value l.
Proof. induction 1 as [|v l Hv _ IH]; simpl; unfold octet in *; lia. Qed.

Lemma acc_sum_exact l i x :
  octets l → 0 ≤ i → 0 ≤ x →
  x + 256 ^ i * le_value l < 2 ^ 53 →
  acc_sum i x l = x + 256 ^ i * le_value l.
Proof.
  intros Hl. revert i x. induction Hl as [|v l Hv Hl IH]; intros i x Hi Hx Hsum.
  { simpl. lia. }
  cbn [acc_sum le_value] in *.
  pose proof (le_value_nonneg l Hl) as Hnn. unfold octet in Hv.
  assert (Hp : 0 < 256 ^ i) by (apply Z.pow_pos_nonneg; lia).
  assert (Hp' : 256 ^ (i + 1) = 256 ^ i * 256) by (rewrite Z.pow_add_r; lia).
  rewrite round53_small by (rewrite Z.abs_eq; nia).
  rewrite IH; [| lia | nia | rewrite Hp'; nia]. rewrite Hp'. lia.
Qed.

Lemma acc_sum_keeps_large l i x :
  octets l → 0 ≤ i → 2 ^ 53 ≤ x → 2 ^ 53 ≤ acc_sum i x l.
Proof.
  intros Hl. revert i x. induction Hl as [|v l Hv Hl IH]; intros i x Hi Hx.
  { done. }
  cbn [acc_sum]. unfold octet in Hv.
  assert (Hp : 0 < 256 ^ i) by (apply Z.pow_pos_nonneg; lia).
  apply IH; [lia|]. apply round53_large. nia.
Qed.

Lemma acc_sum_large l i x :
  octets l → 0 ≤ i → 0 ≤ x →
  2 ^ 53 ≤ x + 256 ^ i * le_value l →
  2 ^ 53 ≤ acc_sum i x l.
Proof.
  intros Hl. revert i x. induction Hl as [|v l Hv Hl IH]; intros i x Hi Hx Hsum.
  { simpl in *. lia. }
  cbn [acc_sum le_value] in *.
  pose proof (le_value_nonneg l Hl) as Hnn. unfold octet in Hv.
  assert (Hp : 0 < 256 ^ i) by (apply Z.pow_pos_nonneg; lia).
  assert (Hp' : 256 ^ (i + 1) = 256 ^ i * 256) by (rewrite Z.pow_add_r; lia).
  destruct (Z.lt_ge_cases (x + v * 256 ^ i) (2 ^ 53)) as [Hlt | Hge].
  - rewrite round53_small by (rewrite Z.abs_eq; nia).
    apply IH; [lia | nia | rewrite Hp'; nia].
  - apply acc_sum_keeps_large; [done | lia | by apply round53_large].
Qed.

(** [valueOf]'s sum over eight octets: exact below 2^53, and at least 2^53
    from there on. *)
Lemma acc_sum_spec l :
  octets l →
  (MAX_INT <=? acc_sum 0 0 l) = (MAX_INT <=? le_value l)
  ∧ (le_value l < MAX_INT → acc_sum 0 0 l = le_value l).
Proof.
  intros Hl. unfold MAX_INT.
  destruct (Z.lt_ge_cases (le_value l) (2 ^ 53)) as [Hlt | Hge].
  - rewrite acc_sum_exact by (done || lia). split; [f_equal; lia | lia].
  - pose proof (acc_sum_large l 0 0 Hl). split; [|lia].
    destruct (Z.leb_spec (2 ^ 53) (acc_sum 0 0 l)), (Z.leb_spec (2 ^ 53) (le_value l)); lia.
Qed.

Lemma comp_octet_value c x :
  octet x → c = 0 ∨ c = 1 →
  (comp_octet c x).1 + 256 * (comp_octet c x).2 = 255 - x + c.
Proof.
  intros Hx Hc.
  pose (f c x := (comp_octet c x).1 + 256 * (comp_octet c x).2 =? 255 - x + c).
  assert (Hf : f c x = true).
  { destruct Hc as [-> | ->]; apply octet_cases; auto; vm_compute; reflexivity. }
  unfold f in Hf. lia.
Qed.

Lemma comp_value c l :
  octets l → c = 0 ∨ c = 1 →
  le_value (comp c l) + 256 ^ Z.of_nat (length l) * comp_carry c l
  = 256 ^ Z.of_nat (length l) - 1 - le_value l + c.
Proof.
  intros Hl. revert c. induction Hl as [|x l Hx Hl IH]; intros c Hc.
  { simpl. lia. }
  cbn [comp comp_carry le_value length].
  pose proof (comp_octet_value c x Hx Hc) as Hv.
  pose proof (comp_octet_twice c x Hx Hc) as Ht.
  destruct (comp_octet c x) as [y c'] eqn:E. destruct Ht as (_ & _ & Hc').
  cbn [fst snd] in *. specialize (IH c' Hc').
  rewrite Nat2Z.inj_succ, Z.pow_succ_r by lia. lia.
Qed.

Lemma le_value_range l : octets l → 0 ≤ le_value l < 256 ^ Z.of_nat (length l).
Proof.
  induction 1 as [|v l Hv _ IH]; cbn [le_value length]; [simpl; lia|].
  rewrite Nat2Z.inj_succ, Z.pow_succ_r by lia. unfold octet in Hv. lia.
Qed.

Lemma comp_value_8 l :
  octets l → length l = 8%nat →
  le_value (comp 1 l) = (2 ^ 64 - le_value l) mod 2 ^ 64.
Proof.
  intros Hl Hlen.
  pose proof (comp_value 1 l Hl (or_intror eq_refl)) as Hv.
  destruct (comp_twice 1 l Hl (or_intror eq_refl)) as (_ & Hoct & _).
  pose proof (le_value_range _ Hoct) as Hr. pose proof (le_value_range _ Hl) as Hr'.
  rewrite length_comp in Hr. rewrite Hlen in *.
  change (256 ^ Z.of_nat 8) with (2 ^ 64) in *.
  apply (Z.mod_unique _ _ (comp_carry 1 l)); lia.
Qed.

Lemma valueOf_region (h : heap) (this : Int64) (pre mid post : list Z) :
  h !! buffer this = Some (pre ++ mid ++ post) →
  offset this = Z.of_nat (length pre) → length mid = 8%nat → octets mid →
  valueOf h this =
    let negate := negb (Z.land (elem (pre ++ mid ++ post) 0) 0x80 =? 0) in
    let mag := if negate then (2 ^ 64 - be_value mid) mod 2 ^ 64 else be_value mid in
    if MAX_INT <=? mag then Inf negate
    else of_Z (if negate then - mag else mag).
Proof.
  intros Hh Ho Hlen Hoct. unfold valueOf, buf. rewrite Hh, Ho.
  cbn [default from_option]. unfold id.
  rewrite valueOf_fold_region by done. unfold be_value.
  assert (Hrev : octets (reverse mid)) by by apply octets_reverse.
  destruct (Z.land _ 128 =? 0); cbn [negb].
  - destruct (acc_sum_spec _ Hrev) as [-> Hex].
    destruct (Z.leb_spec MAX_INT (le_value (reverse mid))); [done|]. by rewrite Hex.
  - rewrite <- comp_value_8 by (done || by rewrite length_reverse).
    destruct (comp_twice 1 (reverse mid) Hrev (or_intror eq_refl)) as (_ & Hoct' & _).
    destruct (acc_sum_spec _ Hoct') as [-> Hex].
    destruct (Z.leb_spec MAX_INT (le_value (comp 1 (reverse mid)))); [done|]. by rewrite Hex.
Qed.

Lemma sign_bit_be_value (mid post : list Z) :
  length mid = 8%nat → octets mid →
  (Z.land (elem (mid ++ post) 0) 0x80 =? 0) = negb (2 ^ 63 <=? be_value mid).
Proof.
  intros Hlen Hoct.
  eight_octets mid Hlen.
  split_octets.
  change (elem _ 0) with z.
  assert (Hz : (Z.land z 0x80 =? 0) = (z <? 128)).
  { apply (octet_cases (λ z, bool_decide ((Z.land z 0x80 =? 0) = (z <? 128)))) in H.
    - by apply bool_decide_eq_true in H.
    - vm_compute. reflexivity. }
  rewrite Hz. unfold be_value, reverse. cbn [rev_append le_value].
  unfold octet in *.
  destruct (Z.ltb_spec z 128), (Z.leb_spec (2 ^ 63)
    (z6 + 256 * (z5 + 256 * (z4 + 256 * (z3 + 256 * (z2 + 256 * (z1 + 256 * (z0 + 256 * (z + 256 * 0)))))))));
    simpl; lia.
Qed.

Theorem valueOf_at_offset_0 (h : heap) (this : Int64) (mid post : list Z) :
  h !! buffer this = Some (mid ++ post) →
  offset this = 0 → length mid = 8%nat → octets mid →
  valueOf h this =
    let n := int64_value mid in
    if MAX_INT <=? Z.abs n then Inf (n <? 0) else of_Z n.
Proof.
  intros Hh Ho Hlen Hoct.
  rewrite (valueOf_region h this [] mid post) by done.
  cbn [app]. rewrite sign_bit_be_value by done. rewrite negb_involutive.
  unfold int64_value. cbn zeta.
  pose proof (le_value_range (reverse mid)) as Hr.
  rewrite length_reverse, Hlen in Hr. change (256 ^ Z.of_nat 8) with (2 ^ 64) in Hr.
  specialize (Hr (proj2 (octets_reverse _) Hoct)). fold (be_value mid) in Hr.
  destruct (Z.leb_spec (2 ^ 63) (be_value mid)).
  - rewrite Z.mod_small by lia.
    replace (Z.abs (be_value mid - 2 ^ 64)) with (2 ^ 64 - be_value mid) by lia.
    replace (be_value mid - 2 ^ 64 <? 0) with true by (symmetry; apply Z.ltb_lt; lia).
    destruct (MAX_INT <=? _); [done|]. f_equal. f_equal. lia.
  - rewrite Z.abs_eq by lia.
    replace (be_value mid <? 0) with false by (symmetry; apply Z.ltb_ge; lia).
    done.
Qed.

(** ** The numeric path *)

Lemma js_rem_of_Z a : js_rem (of_Z a) (of_Z VAL32) = of_Z (Z.rem a VAL32).
Proof.
  unfold js_rem, of_Z.
  change (Qnum (inject_Z VAL32) =? 0) with false. cbv iota.
  f_equal.
  unfold Qtrunc, Qdiv, Qminus, Qplus, Qmult, Qopp, Qinv, inject_Z.
  pose (V := 4294967296%positive).
  change VAL32 with (Z.pos V). clearbody V.
  cbn [Qnum Qden]. rewrite !Pos.mul_1_l, !Z.mul_1_r.
  f_equal. pose proof (Z.quot_rem' a (Z.pos V)). lia.
Qed.

Lemma js_div_of_Z a :
  js_div (of_Z a) (of_Z VAL32) = Num (a # 4294967296).
Proof.
  unfold js_div, of_Z.
  change (Qnum (inject_Z VAL32) =? 0) with false. cbv iota.
  f_equal.
  unfold Qdiv, Qmult, Qinv, inject_Z.
  pose (V := 4294967296%positive).
  change VAL32 with (Z.pos V).
  cbn [Qnum Qden]. by rewrite !Pos.mul_1_l, !Z.mul_1_r.
Qed.

Lemma Math_abs_of_Z a : Math_abs (of_Z a) = of_Z (Z.abs a).
Proof. reflexivity. Qed.

Lemma js_lt_of_Z a b : js_lt (of_Z a) (of_Z b) = (a <? b).
Proof. unfold js_lt, of_Z, inject_Z. cbn [Qnum Qden]. by rewrite !Z.mul_1_r. Qed.

Lemma ToUint32_lor_0 x : ToUint32 (of_Z (Z.lor (ToInt32 x) 0)) = ToUint32 x.
Proof.
  rewrite Z.lor_0_r, ToUint32_of_Z. unfold ToInt32.
  pose proof (ToUint32_range x).
  destruct (2 ^ 31 <=? ToUint32 x).
  - replace (ToUint32 x - 2 ^ 32) with (ToUint32 x + (-1) * 2 ^ 32) by lia.
    rewrite Z.mod_add by lia. by apply Z.mod_small.
  - by apply Z.mod_small.
Qed.

Lemma ToUint32_quotient a :
  0 ≤ a → ToUint32 (Num (a # 4294967296)) = a / 2 ^ 32 mod 2 ^ 32.
Proof.
  intros Ha. unfold ToUint32, Qtrunc. cbn [Qnum Qden].
  by rewrite Z.quot_div_nonneg by lia.
Qed.

Lemma octets_half_octets x : octets (half_octets x).
Proof.
  unfold half_octets, octets, octet.
  repeat constructor; apply Z.mod_pos_bound; lia.
Qed.

Lemma be_value_halves hi lo :
  be_value (half_octets hi ++ half_octets lo) = ToUint32 hi * 2 ^ 32 + ToUint32 lo.
Proof.
  unfold be_value, half_octets, reverse. cbn [app rev_append le_value].
  pose proof (ToUint32_range hi) as Hhi. pose proof (ToUint32_range lo) as Hlo.
  revert Hhi Hlo. generalize (ToUint32 hi) (ToUint32 lo). intros u v Hu Hv.
  change (2 ^ 24) with (256 * 256 * 256). change (2 ^ 16) with (256 * 256).
  change (2 ^ 8) with 256. change (2 ^ 32) with (256 * 256 * 256 * 256) in *.
  rewrite <- !Z.div_div by lia.
  assert (Hsmall : ∀ w, 0 ≤ w < 256 * 256 * 256 * 256 →
    w = w mod 256 + 256 * (w / 256 mod 256 + 256 * (w / 256 / 256 mod 256
        + 256 * (w / 256 / 256 / 256 mod 256)))).
  { intros w Hw.
    rewrite (Z.mod_small (w / 256 / 256 / 256)).
    2: { split; [repeat apply Z.div_pos; lia|].
         repeat (apply Z.div_lt_upper_bound; [lia|]). lia. }
    pose proof (Z.div_mod w 256). pose proof (Z.div_mod (w / 256) 256).
    pose proof (Z.div_mod (w / 256 / 256) 256). lia. }
  pose proof (Hsmall u Hu). pose proof (Hsmall v Hv). lia.
Qed.

Lemma octets_stored_octets negate hi lo : octets (stored_octets negate hi lo).
Proof.
  unfold stored_octets.
  assert (Hb : octets (half_octets hi ++ half_octets lo))
    by (apply octets_app; split; apply octets_half_octets).
  destruct negate; [|done].
  apply octets_reverse. apply comp_twice; [by apply octets_reverse | by right].
Qed.

Lemma length_stored_octets negate hi lo : length (stored_octets negate hi lo) = 8%nat.
Proof.
  unfold stored_octets. destruct negate; [|done].
  by rewrite length_reverse, length_comp, length_reverse.
Qed.

Create HintDb octets.
#[local] Hint Resolve octets_half_octets octets_stored_octets length_stored_octets : octets.
#[local] Hint Extern 1 (_ !! _ = Some _) =>
  cbn [buffer app]; rewrite ?app_nil_r; apply lookup_insert_eq : octets.

Lemma setValue_region (h : heap) (this : Int64) args negate hi lo pre mid post :
  setValue_args args = Normal (negate, hi, lo) →
  h !! buffer this = Some (pre ++ mid ++ post) →
  offset this = Z.of_nat (length pre) → length mid = 8%nat →
  setValue h this args
  = Normal (<[buffer this := pre ++ stored_octets negate hi lo ++ post]> h).
Proof.
  intros Hargs Hh Ho Hmid. unfold setValue. rewrite Hargs. f_equal.
  assert (Hcopy : alter (λ b, copy_bytes b (offset this) hi lo) (buffer this) h
    = <[buffer this := pre ++ (half_octets hi ++ half_octets lo) ++ post]> h).
  { apply map_eq. intros l. destruct (decide (l = buffer this)) as [-> | Hne].
    - rewrite lookup_alter_eq, lookup_insert_eq, Hh, Ho. cbn [fmap option_fmap option_map].
      by rewrite copy_bytes_region.
    - by rewrite lookup_alter_ne, lookup_insert_ne. }
  rewrite Hcopy. unfold stored_octets. destruct negate; [|done].
  unfold _2scomp. rewrite alter_insert_eq, Ho. by rewrite _2scomp_buf_region.
Qed.

Lemma be_value_reverse (l : list Z) : be_value (reverse l) = le_value l.
Proof. unfold be_value. by rewrite reverse_involutive. Qed.

Lemma be_value_stored negate hi lo :
  be_value (stored_octets negate hi lo)
  = let u := ToUint32 hi * 2 ^ 32 + ToUint32 lo in
    if negate then (2 ^ 64 - u) mod 2 ^ 64 else u.
Proof.
  unfold stored_octets. cbn zeta.
  assert (Hb : octets (half_octets hi ++ half_octets lo))
    by (apply octets_app; split; apply octets_half_octets).
  destruct negate; [| apply be_value_halves].
  rewrite be_value_reverse, comp_value_8;
    [| by apply octets_reverse | by rewrite length_reverse].
  fold (be_value (half_octets hi ++ half_octets lo)). by rewrite be_value_halves.
Qed.

Lemma setValue_args_integer n :
  Z.abs n ≤ 2 ^ 64 →
  setValue_args (Args1 (VNumber (of_Z n)))
  = Normal (n <? 0, of_Z (Z.lor (ToInt32 (Num (Z.abs n # 4294967296))) 0),
            of_Z (Z.rem (Z.abs n) VAL32)).
Proof.
  intros Hn. unfold setValue_args.
  rewrite js_lt_of_Z, Math_abs_of_Z, js_rem_of_Z, js_div_of_Z.
  replace (js_lt (of_Z VAL32) (Num (Z.abs n # 4294967296))) with false; [done|].
  symmetry. unfold js_lt, of_Z, inject_Z. cbn [Qnum Qden].
  apply Z.ltb_ge. change (VAL32 * Z.pos 4294967296) with (2 ^ 64). lia.
Qed.

(** ** Range errors of the numeric path *)

Lemma js_lt_high_half n :
  js_lt (of_Z VAL32) (js_div (Math_abs n) (of_Z VAL32)) = true ↔ high_half_exceeds n.
Proof.
  destruct n as [|s|q]; cbn [Math_abs high_half_exceeds].
  - done.
  - done.
  - unfold js_div, of_Z. change (Qnum (inject_Z VAL32) =? 0) with false. cbv iota.
    unfold js_lt, Qlt. apply Z.ltb_lt.
Qed.

(** On integers the high half exceeds 2^32 exactly above 2^64. *)
Lemma high_half_exceeds_integer n : high_half_exceeds (of_Z n) ↔ 2 ^ 64 < Z.abs n.
Proof.
  rewrite <- js_lt_high_half, Math_abs_of_Z, js_div_of_Z.
  unfold js_lt, of_Z, inject_Z. cbn [Qnum Qden]. rewrite Z.ltb_lt.
  change (VAL32 * Z.pos 4294967296) with (2 ^ 64). lia.
Qed.

(** ** Views *)

(** A view at offset 0 sees what the owner writes afterwards. *)
Example view_aliases_buffer :
  let h : heap := {[ 1%positive := [0; 0; 0; 0; 0; 0; 0; 42] ]} in
  let this := {| buffer := 1%positive; offset := 0 |} in
  valueOf h this = of_Z 42
  ∧ valueOf (<[1%positive := [0; 0; 0; 0; 0; 0; 1; 0]]> h) this = of_Z 256.
Proof. split; vm_compute; reflexivity. Qed.

(** ** Saturation of [valueOf] *)

(** Where the region starts at index 0 of its Buffer, which includes every
    Int64 that owns its storage, a magnitude of 2^53 or more is returned as
    the infinity of the sign of the stored value. *)
Lemma valueOf_saturates_at_offset_0 (h : heap) (this : Int64) (mid post : list Z) :
  h !! buffer this = Some (mid ++ post) →
  offset this = 0 → length mid = 8%nat → octets mid →
  2 ^ 53 ≤ Z.abs (int64_value mid) →
  valueOf h this = Inf (int64_value mid <? 0).
Proof.
  intros Hh Ho Hlen Hoct Hmag.
  rewrite (valueOf_at_offset_0 h this mid post) by done. cbn zeta. unfold MAX_INT.
  by destruct (Z.leb_spec (2 ^ 53) (Z.abs (int64_value mid))); [|lia].
Qed.

(** C2, at a view whose offset is not 0: the eight octets at offset 8 hold
    -2^63, a negative value of magnitude 2^63, and [valueOf] returns
    +Infinity, because it reads the sign from index 0 of the Buffer. *)
Theorem valueOf_view_saturates_with_sign_of_index_0 :
  let b := [0; 0; 0; 0; 0; 0; 0; 0; 0x80; 0; 0; 0; 0; 0; 0; 0] in
  let h : heap := {[ 1%positive := b ]} in
  ∃ this,
    Int64_new (λ _, 0) h (NewView 1%positive (Some 8)) = Normal (h, this)
    ∧ int64_value (take 8 (drop 8 b)) = - 2 ^ 63
    ∧ valueOf h this = Inf false.
Proof. eexists. split; [reflexivity|]. split; vm_compute; reflexivity. Qed.

(** C6, at a view whose offset is not 0: the view's own most significant
    octet, at index [offset + 0 = 8], is 0 and its eight octets hold 1, yet
    [valueOf] takes the value for negative, from the high bit of the octet
    at index 0 of the Buffer, and returns -Infinity. *)
Theorem valueOf_view_reads_sign_at_index_0 :
  let b := [0x80; 0; 0; 0; 0; 0; 0; 0; 0; 0; 0; 0; 0; 0; 0; 1] in
  let h : heap := {[ 1%positive := b ]} in
  ∃ this,
    Int64_new (λ _, 0) h (NewView 1%positive (Some 8)) = Normal (h, this)
    ∧ elem b (offset this + 0) = 0
    ∧ int64_value (take 8 (drop 8 b)) = 1
    ∧ valueOf h this = Inf true.
Proof. eexists. split; [reflexivity|]. repeat split; vm_compute; reflexivity. Qed.

(** What [valueOf] takes for the sign in general: the high bit of the octet
    at index 0 of the Buffer, whatever the offset. *)
Lemma valueOf_sign_depends_on_index_0 (h : heap) (this : Int64) (pre mid post : list Z) :
  h !! buffer this = Some (pre ++ mid ++ post) →
  offset this = Z.of_nat (length pre) → length mid = 8%nat → octets mid →
  2 ^ 53 ≤ be_value mid < 2 ^ 64 - 2 ^ 53 →
  valueOf h this = Inf (negb (Z.land (elem (pre ++ mid ++ post) 0) 0x80 =? 0)).
Proof.
  intros Hh Ho Hlen Hoct Hmag.
  rewrite (valueOf_region h this pre mid post) by done. cbn zeta. unfold MAX_INT.
  destruct (negb _).
  - rewrite Z.mod_small by lia.
    by destruct (Z.leb_spec (2 ^ 53) (2 ^ 64 - be_value mid)); [|lia].
  - by destruct (Z.leb_spec (2 ^ 53) (be_value mid)); [|lia].
Qed.

(** ** What [setValue] writes *)

Lemma get_set_ne (b : list Z) i j v : i ≠ j → get (set b i v) j = get b j.
Proof.
  intros Hne. unfold get, set.
  destruct (Z.leb_spec 0 j); [|done]. destruct (Z.leb_spec 0 i); [|done].
  apply list_lookup_insert_ne. lia.
Qed.

Lemma length_set (b : list Z) i v : length (set b i v) = length b.
Proof. unfold set. destruct (0 <=? i); [apply length_insert | done]. Qed.

Lemma copy_fold_frame o hi (idx : list Z) (b : list Z) lo j :
  (∀ i, i ∈ idx → o + i ≠ j) →
  get (foldl (copy_step o hi) (b, lo) idx).1 j = get b j
  ∧ length (foldl (copy_step o hi) (b, lo) idx).1 = length b.
Proof.
  revert b lo. induction idx as [|i idx IH]; intros b lo Hidx; [done|].
  cbn [foldl]. unfold copy_step at 2 4.
  destruct (IH (set b (o + i) (Z.land (ToInt32 lo) 255))
              (if i =? 4 then hi else of_Z (Z.shiftr (ToUint32 lo) 8))) as [-> ->].
  { intros i' Hi'. apply Hidx. by right. }
  rewrite get_set_ne by (apply Hidx; by left). by rewrite length_set.
Qed.

Lemma _2scomp_fold_frame (idx : list Z) (b : list Z) c j :
  j ∉ idx →
  get (foldl _2scomp_step (b, c) idx).1 j = get b j
  ∧ length (foldl _2scomp_step (b, c) idx).1 = length b.
Proof.
  revert b c. induction idx as [|i idx IH]; intros b c Hidx; [done|].
  cbn [foldl]. unfold _2scomp_step at 2 4.
  apply not_elem_of_cons in Hidx as [Hne Hidx].
  destruct (IH (set b i (Z.land (Z.lxor (elem b i) 255 + c) 255))
              (Z.shiftr (Z.lxor (elem b i) 255 + c) 8) Hidx) as [-> ->].
  rewrite get_set_ne by done. by rewrite length_set.
Qed.

Lemma copy_bytes_frame (b : list Z) o hi lo j :
  ¬ (o ≤ j < o + 8) →
  get (copy_bytes b o hi lo) j = get b j
  ∧ length (copy_bytes b o hi lo) = length b.
Proof.
  intros Hj. apply copy_fold_frame. intros i Hi.
  apply elem_of_reverse, elem_of_seqZ in Hi. lia.
Qed.

Lemma _2scomp_buf_frame (b : list Z) o j :
  ¬ (o ≤ j < o + 8) →
  get (_2scomp_buf b o) j = get b j
  ∧ length (_2scomp_buf b o) = length b.
Proof.
  intros Hj. apply _2scomp_fold_frame. intros Hi.
  apply elem_of_reverse, elem_of_seqZ in Hi. lia.
Qed.

(** C9: a successful [setValue] changes no Buffer but its own, keeps its
    length, and leaves every octet outside [offset, offset + 8) as it was. *)
Theorem setValue_frame (h h' : heap) (this : Int64) (args : arguments) :
  setValue h this args = Normal h' →
  (∀ l, l ≠ buffer this → h' !! l = h !! l)
  ∧ length (buf h' (buffer this)) = length (buf h (buffer this))
  ∧ (∀ j, ¬ (offset this ≤ j < offset this + 8) →
       get (buf h' (buffer this)) j = get (buf h (buffer this)) j).
Proof.
  unfold setValue. destruct (setValue_args args) as [[[negate hi] lo]|e]; [|discriminate].
  intros [= <-]. split; [|split].
  - intros l Hl. destruct negate; unfold _2scomp; by rewrite ?lookup_alter_ne.
  - unfold buf. destruct negate; unfold _2scomp; rewrite ?lookup_alter_eq;
      destruct (h !! buffer this) as [b|]; cbn; [| done | | done].
    + destruct (_2scomp_buf_frame (copy_bytes b (offset this) hi lo) (offset this)
                  (offset this - 1)) as [_ ->]; [lia|].
      by destruct (copy_bytes_frame b (offset this) hi lo (offset this - 1)) as [_ ->]; [lia|].
    + by destruct (copy_bytes_frame b (offset this) hi lo (offset this - 1)) as [_ ->]; [lia|].
  - intros j Hj. unfold buf.
    destruct negate; unfold _2scomp; rewrite ?lookup_alter_eq;
      destruct (h !! buffer this) as [b|]; cbn; [| done | | done].
    + destruct (_2scomp_buf_frame (copy_bytes b (offset this) hi lo) (offset this) j Hj)
        as [-> _].
      by destruct (copy_bytes_frame b (offset this) hi lo j Hj) as [-> _].
    + by destruct (copy_bytes_frame b (offset this) hi lo j Hj) as [-> _].
Qed.

Lemma setValue_frame_witness :
  let h : heap := {[ 1%positive := [1; 2; 3; 4; 5; 6; 7; 8; 9; 10; 11; 12] ]} in
  let this := {| buffer := 1%positive; offset := 2 |} in
  let args := Args1 (VNumber (of_Z (-2))) in
  let h' : heap := {[ 1%positive := [1; 2; 255; 255; 255; 255; 255; 255; 255; 254; 11; 12] ]} in
  setValue h this args = Normal h'
  ∧ (∀ l, l ≠ buffer this → h' !! l = h !! l)
  ∧ length (buf h' (buffer this)) = length (buf h (buffer this))
  ∧ (∀ j, ¬ (offset this ≤ j < offset this + 8) →
       get (buf h' (buffer this)) j = get (buf h (buffer this)) j).
Proof.
  intros h this args h'.
  assert (Hset : setValue h this args = Normal h') by (vm_compute; reflexivity).
  split; [exact Hset|]. exact (setValue_frame h h' this args Hset).
Defined.

(** A call that throws has written nothing: [setValue] returns no heap then. *)
Lemma setValue_throws_before_writing (h : heap) (this : Int64) (args : arguments) e :
  setValue h this args = Throw e → setValue_args args = Throw e.
Proof.
  unfold setValue. destruct (setValue_args args) as [[[negate hi] lo]|e']; cbn;
    [discriminate | by intros [= ->]].
Qed.

(** ** The octet string *)

Lemma _HEX_lookup v : octet v → _HEX !! Z.to_nat v = Some (hex_octet v).
Proof.
  intros Hv.
  pose (f v := match _HEX !! Z.to_nat v with
               | Some s => String.eqb s (hex_octet v)
               | None => false
               end).
  assert (Hf : f v = true) by (revert v Hv; apply octet_cases; vm_compute; reflexivity).
  unfold f in Hf. destruct (_HEX !! Z.to_nat v) as [s|]; [|discriminate].
  apply String.eqb_eq in Hf. by subst.
Qed.

Lemma get_app_r (pre l : list Z) i :
  0 ≤ i → get (pre ++ l) (Z.of_nat (length pre) + i) = get l i.
Proof.
  intros Hi. unfold get.
  destruct (Z.leb_spec 0 (Z.of_nat (length pre) + i)); [|lia].
  destruct (Z.leb_spec 0 i); [|lia].
  replace (Z.to_nat (Z.of_nat (length pre) + i)) with (length pre + Z.to_nat i)%nat by lia.
  by rewrite lookup_app_r, Nat.add_sub' by lia.
Qed.

Lemma join_Some sep (l : list string) : join sep (Some <$> l) = String.concat sep l.
Proof.
  induction l as [|x [|y l] IH]; [done | done |].
  change (join sep (Some <$> x :: y :: l))
    with (append x (append sep (join sep (Some <$> y :: l)))).
  by rewrite IH.
Qed.

Lemma toOctetString_region (h : heap) (this : Int64) (pre mid post : list Z) sep :
  h !! buffer this = Some (pre ++ mid ++ post) →
  offset this = Z.of_nat (length pre) → length mid = 8%nat → octets mid →
  toOctetString h this sep = String.concat (default EmptyString sep) (hex_octet <$> mid).
Proof.
  intros Hh Ho Hlen Hoct. unfold toOctetString, buf. rewrite Hh, Ho.
  cbn [default from_option]. unfold id.
  rewrite <- join_Some. f_equal.
  eight_octets mid Hlen.
  split_octets.
  change (seqZ 0 8) with [0; 1; 2; 3; 4; 5; 6; 7].
  cbn [fmap list_fmap]. rewrite !get_app_r by lia.
  read_index get.
  cbn [mbind option_bind].
  repeat match goal with
    | H : octet ?z |- context [0 <=? ?z] =>
        replace (0 <=? z) with true by (symmetry; apply Z.leb_le; apply H)
    end.
  by rewrite !_HEX_lookup.
Qed.

Lemma shift_octet_mod x k :
  0 ≤ k ≤ 24 → (x mod 2 ^ 32) / 2 ^ k mod 256 = x / 2 ^ k mod 256.
Proof.
  intros Hk. rewrite (Z.mod_eq x (2 ^ 32)) by lia.
  replace (2 ^ 32) with (2 ^ (24 - k) * 256 * 2 ^ k).
  2: { change 256 with (2 ^ 8). rewrite <- !Z.pow_add_r by lia. f_equal. lia. }
  replace (x - 2 ^ (24 - k) * 256 * 2 ^ k * (x / (2 ^ (24 - k) * 256 * 2 ^ k)))
    with (x + (- (2 ^ (24 - k) * 256 * (x / (2 ^ (24 - k) * 256 * 2 ^ k)))) * 2 ^ k) by lia.
  rewrite Z.div_add by lia.
  replace (- (2 ^ (24 - k) * 256 * (x / (2 ^ (24 - k) * 256 * 2 ^ k))))
    with ((- (2 ^ (24 - k) * (x / (2 ^ (24 - k) * 256 * 2 ^ k)))) * 256) by lia.
  by rewrite Z.mod_add by lia.
Qed.

Lemma half_octets_of_Z x : half_octets (of_Z x) = int32_octets x.
Proof.
  unfold half_octets, int32_octets. rewrite ToUint32_of_Z.
  rewrite !land_0xff, !Z.shiftr_div_pow2 by lia.
  rewrite !shift_octet_mod by lia.
  replace (x mod 2 ^ 32 mod 256) with (x mod 256); [done|].
  pose proof (shift_octet_mod x 0) as H0. rewrite !Z.pow_0_r, !Z.div_1_r in H0.
  symmetry. apply H0. lia.
Qed.

(** ** Hex strings *)

Lemma ascii_cases (f : ascii → bool) :
  forallb f (ascii_of_nat <$> seq 0 256) = true → ∀ c, f c = true.
Proof.
  intros Hall c. rewrite forallb_forall in Hall. apply Hall.
  rewrite <- (ascii_nat_embedding c). apply in_map, in_seq.
  pose proof (nat_ascii_bounded c). lia.
Qed.

Lemma hex_digit_facts c d :
  hex_digit c = Some d →
  is_white c = false ∧ 0 ≤ d < 16 ∧ hex_char d = lower c
  ∧ c ≠ "-"%char ∧ c ≠ "+"%char ∧ c ≠ "x"%char ∧ c ≠ "X"%char.
Proof.
  intros Hd.
  pose (f c := match hex_digit c with
               | Some d => negb (is_white c) && (0 <=? d) && (d <? 16)
                           && Ascii.eqb (hex_char d) (lower c)
                           && negb (Ascii.eqb c "-") && negb (Ascii.eqb c "+")
                           && negb (Ascii.eqb c "x") && negb (Ascii.eqb c "X")
               | None => true
               end).
  assert (Hf : f c = true) by (apply ascii_cases; vm_compute; reflexivity).
  unfold f in Hf. rewrite Hd in Hf.
  repeat (apply andb_prop in Hf as [Hf ?]).
  repeat match goal with
    | H : negb _ = true |- _ => apply negb_true_iff in H
    | H : Ascii.eqb _ _ = true |- _ => apply Ascii.eqb_eq in H
    | H : Ascii.eqb _ _ = false |- _ => apply Ascii.eqb_neq in H
    | H : (_ <=? _) = true |- _ => apply Z.leb_le in H
    | H : (_ <? _) = true |- _ => apply Z.ltb_lt in H
    end.
  repeat split; try done; lia.
Qed.

Lemma strip_sign_no_sign c s :
  c ≠ "-"%char → c ≠ "+"%char → strip_sign (String c s) = (1, String c s).
Proof.
  intros Hm Hp.
  destruct c as [[] [] [] [] [] [] [] []]; try reflexivity; congruence.
Qed.

Lemma strip_radix_prefix_no_x c c1 s :
  c1 ≠ "x"%char → c1 ≠ "X"%char →
  strip_radix_prefix (String c (String c1 s)) = String c (String c1 s).
Proof.
  intros Hx HX.
  destruct c as [[] [] [] [] [] [] [] []]; try reflexivity.
  destruct c1 as [[] [] [] [] [] [] [] []]; try reflexivity; congruence.
Qed.

Lemma strip_0x_no_x c c1 s :
  c1 ≠ "x"%char → strip_0x (String c (String c1 s)) = String c (String c1 s).
Proof.
  intros Hx.
  destruct c as [[] [] [] [] [] [] [] []]; try reflexivity.
  destruct c1 as [[] [] [] [] [] [] [] []]; try reflexivity; congruence.
Qed.

Lemma number_of_integer_small z : Z.abs z < 2 ^ 53 → number_of_integer z = of_Z z.
Proof.
  intros Hz. unfold number_of_integer. rewrite round53_small by done.
  destruct (Z.leb_spec (2 ^ 1024) (Z.abs z)) as [Hbig|]; [|done].
  assert (2 ^ 53 < 2 ^ 1024) by (apply Z.pow_lt_mono_r; lia). lia.
Qed.

Lemma strip_radix_prefix_single c :
  strip_radix_prefix (String c EmptyString) = String c EmptyString.
Proof. destruct c as [[] [] [] [] [] [] [] []]; reflexivity. Qed.

Lemma hex_string_cons c s :
  hex_string (String c s) ↔ is_Some (hex_digit c) ∧ hex_string s.
Proof.
  unfold hex_string. cbn [list_ascii_of_string].
  apply (Forall_cons (λ c, is_Some (hex_digit c))).
Qed.

Lemma parseInt16_hex_string c s :
  hex_string (String c s) →
  parseInt16 (String c s) = number_of_integer (digits_value (leading_digits (String c s))).
Proof.
  intros Hs. apply hex_string_cons in Hs as [[d Hd] Hs].
  destruct (hex_digit_facts c d Hd) as (Hw & _ & _ & Hm & Hp & _).
  unfold parseInt16. cbn [trim_start]. rewrite Hw, strip_sign_no_sign by done.
  assert (Hpre : strip_radix_prefix (String c s) = String c s).
  { destruct s as [|c1 s]; [apply strip_radix_prefix_single|].
    apply hex_string_cons in Hs as [[d1 Hd1] _].
    destruct (hex_digit_facts c1 d1 Hd1) as (_ & _ & _ & _ & _ & Hx & HX).
    by apply strip_radix_prefix_no_x. }
  rewrite Hpre. cbn [leading_digits]. rewrite Hd. by rewrite Z.mul_1_l.
Qed.

Lemma int32_octets_digits d0 d1 d2 d3 d4 d5 d6 d7 :
  0 ≤ d0 < 16 → 0 ≤ d1 < 16 → 0 ≤ d2 < 16 → 0 ≤ d3 < 16 →
  0 ≤ d4 < 16 → 0 ≤ d5 < 16 → 0 ≤ d6 < 16 → 0 ≤ d7 < 16 →
  0 ≤ digits_value [d0; d1; d2; d3; d4; d5; d6; d7] < 2 ^ 32
  ∧ int32_octets (digits_value [d0; d1; d2; d3; d4; d5; d6; d7])
    = [d0 * 16 + d1; d2 * 16 + d3; d4 * 16 + d5; d6 * 16 + d7].
Proof.
  intros. unfold digits_value, int32_octets. cbn [foldl].
  rewrite !land_0xff, !Z.shiftr_div_pow2 by lia.
  change (2 ^ 24) with 16777216. change (2 ^ 16) with 65536. change (2 ^ 8) with 256.
  change (2 ^ 32) with 4294967296.
  split; [lia|].
  repeat f_equal.
  - symmetry. apply (Z.mod_unique _ _ 0); [lia|].
    rewrite Z.mul_0_r, Z.add_0_l. symmetry. apply (Z.div_unique _ _ _
      (((((d2 * 16 + d3) * 16 + d4) * 16 + d5) * 16 + d6) * 16 + d7)); lia.
  - symmetry. apply (Z.mod_unique _ _ (d0 * 16 + d1)); [lia|].
    symmetry. apply (Z.div_unique _ _ _ (((d4 * 16 + d5) * 16 + d6) * 16 + d7)); lia.
  - symmetry. apply (Z.mod_unique _ _ ((d0 * 16 + d1) * 256 + d2 * 16 + d3)); [lia|].
    symmetry. apply (Z.div_unique _ _ _ (d6 * 16 + d7)); lia.
  - symmetry. apply (Z.mod_unique _ _ (((d0 * 16 + d1) * 256 + d2 * 16 + d3) * 256 + d4 * 16 + d5));
      lia.
Qed.

Lemma hex_octet_digits d e :
  0 ≤ d < 16 → 0 ≤ e < 16 →
  hex_octet (d * 16 + e) = String (hex_char d) (String (hex_char e) EmptyString).
Proof.
  intros Hd He. unfold hex_octet.
  replace ((d * 16 + e) / 16) with d by (apply (Z.div_unique _ _ _ e); lia).
  replace ((d * 16 + e) mod 16) with e by (apply (Z.mod_unique _ _ d); lia).
  done.
Qed.

Lemma hex16_setValue_octets (s t : string) :
  String.length s = 16%nat → hex_string s → strip_0x t = s →
  ∃ hi lo,
    setValue_args (Args1 (VString t)) = Normal (false, hi, lo)
    ∧ String.concat EmptyString (hex_octet <$> stored_octets false hi lo) = toLowerCase s.
Proof.
  intros Hlen Hs Ht.
  do 17 (destruct s as [|? s]; try discriminate). clear Hlen.
  repeat match goal with
    | H : hex_string (String _ _) |- _ =>
        let d := fresh "d" in let Hd := fresh "Hd" in
        apply hex_string_cons in H as [[d Hd] H]
    end.
  unfold setValue_args. rewrite Ht.
  match goal with
  | |- context [substr ?S (-8) None] =>
      let v := eval vm_compute in (substr S (-8) None) in
      change (substr S (-8) None) with v
  end.
  match goal with
  | |- context [if 8 <? len ?S then substr ?S 0 (Some (len ?S - 8)) else EmptyString] =>
      let v := eval vm_compute in (substr S 0 (Some (len S - 8))) in
      change (if 8 <? len S then substr S 0 (Some (len S - 8)) else EmptyString) with v
  end.
  eexists _, _. split; [reflexivity|].
  rewrite !parseInt16_hex_string
    by (repeat (apply hex_string_cons; split; [by eexists|]); constructor).
  cbn [leading_digits].
  repeat match goal with H : hex_digit _ = Some _ |- _ => rewrite H end.
  repeat match goal with
    | H : hex_digit _ = Some _ |- _ =>
        apply hex_digit_facts in H as (_ & ? & ? & _)
    end.
  unfold stored_octets.
  match goal with
  | |- context [number_of_integer (digits_value [?a0; ?a1; ?a2; ?a3; ?a4; ?a5; ?a6; ?a7])] =>
      destruct (int32_octets_digits a0 a1 a2 a3 a4 a5 a6 a7) as [Hr1 He1]; try done
  end.
  rewrite (number_of_integer_small (digits_value _)) by lia.
  match goal with
  | |- context [number_of_integer (digits_value [?a0; ?a1; ?a2; ?a3; ?a4; ?a5; ?a6; ?a7])] =>
      destruct (int32_octets_digits a0 a1 a2 a3 a4 a5 a6 a7) as [Hr2 He2]; try done
  end.
  rewrite (number_of_integer_small (digits_value _)) by lia.
  rewrite !half_octets_of_Z, He1, He2.
  cbn [app fmap list_fmap]. rewrite !hex_octet_digits by done.
  cbn [String.concat append toLowerCase].
  repeat match goal with H : hex_char _ = lower _ |- _ => rewrite H; clear H end.
  reflexivity.
Qed.

(** ** Construction *)

Section Construction.

(** The memory a fresh Buffer is carved from, and the heap at the time of
    the call. *)
Context (mem : nat → Z) (h : heap).

Lemma Int64_new_value args negate hi lo :
  setValue_args args = Normal (negate, hi, lo) →
  Int64_new mem h (NewValue args)
  = Normal (<[fresh (dom h) := stored_octets negate hi lo]> h,
            {| buffer := fresh (dom h); offset := 0 |}).
Proof.
  intros Hargs. unfold Int64_new, new_Buffer.
  set (l := fresh (dom h)). set (junk := _ <$> seq 0 8).
  rewrite (setValue_region _ _ args negate hi lo [] junk []); try done.
  - cbn [buffer app]. by rewrite insert_insert_eq, app_nil_r.
  - cbn [buffer app]. by rewrite lookup_insert_eq, app_nil_r.
Qed.

Lemma Int64_new_throw args e :
  setValue_args args = Throw e → Int64_new mem h (NewValue args) = Throw e.
Proof. intros Hargs. unfold Int64_new, new_Buffer, setValue. by rewrite Hargs. Qed.

(** C1 (as amended): for every integer [n] with [|n| < 2^53], constructing
    an Int64 from the number [n] and extracting it with [valueOf] yields
    exactly [n]. *)
Theorem number_roundtrip (n : Z) :
  Z.abs n < 2 ^ 53 →
  ∃ h' this,
    Int64_new mem h (NewValue (Args1 (VNumber (of_Z n)))) = Normal (h', this)
    ∧ valueOf h' this = of_Z n.
Proof.
  intros Hn. eexists _, _. split.
  { apply Int64_new_value. apply setValue_args_integer. lia. }
  set (hi := of_Z (Z.lor _ 0)). set (lo := of_Z (Z.rem _ _)).
  rewrite (valueOf_at_offset_0 _ _ (stored_octets (n <? 0) hi lo) [])
    by auto with octets.
  assert (Hv : int64_value (stored_octets (n <? 0) hi lo) = n).
  { unfold int64_value. rewrite be_value_stored. cbn zeta. subst hi lo.
    rewrite ToUint32_lor_0, ToUint32_quotient, ToUint32_of_Z by lia.
    rewrite Z.rem_mod_nonneg by (unfold VAL32; lia).
    change VAL32 with (2 ^ 32). rewrite Z.mod_mod by lia.
    rewrite (Z.mod_small (Z.abs n / 2 ^ 32)).
    2: { split; [apply Z.div_pos; lia | apply Z.div_lt_upper_bound; lia]. }
    rewrite Z.mul_comm, <- Z.div_mod by lia.
    destruct (Z.ltb_spec n 0).
    - rewrite Z.mod_small by lia.
      destruct (Z.leb_spec (2 ^ 63) (2 ^ 64 - Z.abs n)); lia.
    - destruct (Z.leb_spec (2 ^ 63) (Z.abs n)); lia. }
  rewrite Hv. cbn zeta. unfold MAX_INT.
  destruct (Z.leb_spec (2 ^ 53) (Z.abs n)); [lia | done].
Qed.

(** C3: numeric construction raises a range error exactly when the high
    half [abs(n) / 2^32] exceeds 2^32, and raises nothing otherwise. *)
Theorem range_error_iff_high_half_exceeds (n : number) :
  (Int64_new mem h (NewValue (Args1 (VNumber n))) = Throw RangeError
   ↔ high_half_exceeds n)
  ∧ (¬ high_half_exceeds n →
     ∃ h' this, Int64_new mem h (NewValue (Args1 (VNumber n))) = Normal (h', this)).
Proof.
  pose proof (js_lt_high_half n) as Hlt.
  destruct (js_lt (of_Z VAL32) (js_div (Math_abs n) (of_Z VAL32))) eqn:E.
  - assert (Hargs : setValue_args (Args1 (VNumber n)) = Throw RangeError)
      by (unfold setValue_args; by rewrite E).
    rewrite (Int64_new_throw _ _ Hargs). split; [tauto|]. intros Hn. tauto.
  - assert (Hargs : ∃ hi lo, setValue_args (Args1 (VNumber n))
        = Normal (js_lt n (of_Z 0), hi, lo))
      by (unfold setValue_args; rewrite E; eauto).
    destruct Hargs as (hi & lo & Hargs).
    rewrite (Int64_new_value _ _ _ _ Hargs). split.
    + split; [discriminate|]. intros Hn. apply Hlt in Hn. discriminate.
    + eauto.
Qed.

(** C7: view construction raises nothing whatever the size of the Buffer,
    keeps a reference to the very Buffer it was given (no octet is copied,
    the heap is the same), checks no bound and defaults the offset to 0. *)
Theorem view_construction (a1 : loc) (a2 : option Z) :
  ∃ this,
    Int64_new mem h (NewView a1 a2) = Normal (h, this)
    ∧ buffer this = a1
    ∧ offset this = default 0 a2.
Proof. by eexists. Qed.

(** C8: constructing from the raw halves [(hi, lo)] leaves the four octets
    of [hi] at indices 0-3 and the four octets of [lo] at indices 4-7, each
    half most significant first, and the octet string prints them in that
    order.  This holds for all integers, those in 32-bit range among them. *)
Theorem raw_halves_layout (hi lo : Z) :
  ∃ h' this,
    Int64_new mem h (NewValue (Args2 (of_Z hi) (of_Z lo))) = Normal (h', this)
    ∧ buf h' (buffer this) = int32_octets hi ++ int32_octets lo
    ∧ toOctetString h' this None
      = String.concat EmptyString (hex_octet <$> (int32_octets hi ++ int32_octets lo)).
Proof.
  eexists _, _. split; [by apply Int64_new_value|].
  assert (Hst : stored_octets false (of_Z hi) (of_Z lo) = int32_octets hi ++ int32_octets lo)
    by (unfold stored_octets; by rewrite !half_octets_of_Z).
  split.
  - unfold buf. cbn [buffer]. rewrite lookup_insert_eq. by rewrite Hst.
  - rewrite (toOctetString_region _ _ [] (stored_octets false (of_Z hi) (of_Z lo)) [])
      by auto with octets.
    by rewrite Hst.
Qed.

(** C10: constructing from a string never throws, whatever the string, and
    a half that [parseInt] could not read ([NaN]) is written as four zero
    octets. *)
Theorem string_construction_never_throws (s : string) :
  ∃ h' this,
    Int64_new mem h (NewValue (Args1 (VString s))) = Normal (h', this)
    ∧ let hex := strip_0x s in
      let lo := substr hex (-8) None in
      let hi := if 8 <? len hex then substr hex 0 (Some (len hex - 8)) else EmptyString in
      (parseInt16 hi = NaN → take 4 (buf h' (buffer this)) = [0; 0; 0; 0])
      ∧ (parseInt16 lo = NaN → drop 4 (buf h' (buffer this)) = [0; 0; 0; 0]).
Proof.
  eexists _, _. split; [by apply Int64_new_value|].
  cbn zeta. unfold buf. cbn [buffer]. rewrite lookup_insert_eq.
  cbn [default from_option]. unfold id, stored_octets.
  split; intros ->; reflexivity.
Qed.

(** C5: for every string [s] of 16 radix-16 digits, written with or without
    a leading [0x], constructing an Int64 from it and rendering the octet
    string with no separator gives [s] in lower case, without the prefix. *)
Theorem hex_string_roundtrip (s : string) :
  String.length s = 16%nat → hex_string s →
  (∃ h' this,
     Int64_new mem h (NewValue (Args1 (VString s))) = Normal (h', this)
     ∧ toOctetString h' this None = toLowerCase s)
  ∧ (∃ h' this,
       Int64_new mem h (NewValue (Args1 (VString (append "0x" s)))) = Normal (h', this)
       ∧ toOctetString h' this None = toLowerCase s).
Proof.
  intros Hlen Hs.
  assert (Hgen : ∀ t, strip_0x t = s →
    ∃ h' this,
      Int64_new mem h (NewValue (Args1 (VString t))) = Normal (h', this)
      ∧ toOctetString h' this None = toLowerCase s).
  { intros t Ht. destruct (hex16_setValue_octets s t Hlen Hs Ht) as (hi & lo & Hargs & Hhex).
    eexists _, _. split; [by apply Int64_new_value|].
    by rewrite (toOctetString_region _ _ [] (stored_octets false hi lo) [])
      by auto with octets. }
  split; apply Hgen.
  - destruct s as [|c [|c1 s]]; try discriminate.
    apply hex_string_cons in Hs as [_ Hs]. apply hex_string_cons in Hs as [[d1 Hd1] _].
    destruct (hex_digit_facts c1 d1 Hd1) as (_ & _ & _ & _ & _ & Hx & _).
    by apply strip_0x_no_x.
  - reflexivity.
Qed.

End Construction.

Lemma number_roundtrip_witness :
  Z.abs (-42) < 2 ^ 53
  ∧ ∃ h' this,
      Int64_new (λ _, 0) ∅ (NewValue (Args1 (VNumber (of_Z (-42))))) = Normal (h', this)
      ∧ valueOf h' this = of_Z (-42).
Proof.
  split; [reflexivity|]. apply (number_roundtrip (λ _, 0) ∅ (-42)). reflexivity.
Defined.

(** C1 (as stated) fails at the number 0.5, whose magnitude is below 2^53:
    the Int64 constructed from it holds 0. *)
Lemma number_roundtrip_fraction_counterexample :
  let n := Num (1 # 2) in
  js_lt (Math_abs n) (of_Z (2 ^ 53)) = true
  ∧ ∃ h' this,
      Int64_new (λ _, 0) ∅ (NewValue (Args1 (VNumber n))) = Normal (h', this)
      ∧ valueOf h' this = of_Z 0
      ∧ ¬ strict_equal (valueOf h' this) n.
Proof.
  split; [reflexivity|]. eexists _, _. split; [vm_compute; reflexivity|].
  split; [vm_compute; reflexivity|]. vm_compute. discriminate.
Qed.

Example range_error_above_2_64 :
  Int64_new (λ _, 0) ∅ (NewValue (Args1 (VNumber (of_Z (2 ^ 64 + 1))))) = Throw RangeError.
Proof. reflexivity. Qed.

Example no_range_error_at_2_64 :
  ∃ this h', Int64_new (λ _, 0) ∅ (NewValue (Args1 (VNumber (of_Z (2 ^ 64))))) = Normal (h', this)
    ∧ buf h' (buffer this) = [0; 0; 0; 0; 0; 0; 0; 0].
Proof. eexists _, _. split; [vm_compute; reflexivity|]. vm_compute. reflexivity. Qed.

Example view_of_short_buffer :
  let h : heap := {[ 1%positive := [1; 2; 3] ]} in
  Int64_new (λ _, 0) h (NewView 1%positive (Some 100))
  = Normal (h, {| buffer := 1%positive; offset := 100 |}).
Proof. reflexivity. Qed.

Example raw_halves_2_53 :
  ∃ h' this,
    Int64_new (λ _, 0) ∅ (NewValue (Args2 (of_Z 0x00200000) (of_Z 0x00000000)))
    = Normal (h', this)
    ∧ valueOf h' this = Inf false.
Proof. eexists _, _. split; [vm_compute; reflexivity|]. vm_compute. reflexivity. Qed.

Example raw_halves_octet_string :
  ∃ h' this,
    Int64_new (λ _, 0) ∅ (NewValue (Args2 (of_Z 0x01234567) (of_Z 0x89abcdef)))
    = Normal (h', this)
    ∧ buf h' (buffer this) = [0x01; 0x23; 0x45; 0x67; 0x89; 0xab; 0xcd; 0xef]
    ∧ toOctetString h' this None = "0123456789abcdef"%string.
Proof.
  eexists _, _. split; [vm_compute; reflexivity|]. split; vm_compute; reflexivity.
Qed.

Lemma hex_string_roundtrip_witness :
  let s := "0123456789ABCDEF"%string in
  String.length s = 16%nat ∧ hex_string s
  ∧ (∃ h' this,
       Int64_new (λ _, 0) ∅ (NewValue (Args1 (VString s))) = Normal (h', this)
       ∧ toOctetString h' this None = "0123456789abcdef"%string)
  ∧ (∃ h' this,
       Int64_new (λ _, 0) ∅ (NewValue (Args1 (VString (append "0x" s)))) = Normal (h', this)
       ∧ toOctetString h' this None = "0123456789abcdef"%string).
Proof.
  intros s.
  assert (Hlen : String.length s = 16%nat) by reflexivity.
  assert (Hs : hex_string s) by (repeat constructor; by eexists).
  split; [exact Hlen|]. split; [exact Hs|].
  exact (hex_string_roundtrip (λ _, 0) ∅ s Hlen Hs).
Defined.

(** The worked examples of the specification. *)
Example minus_one_octets :
  ∃ h' this,
    Int64_new (λ _, 0) ∅ (NewValue (Args1 (VNumber (of_Z (-1))))) = Normal (h', this)
    ∧ toOctetString h' this None = "ffffffffffffffff"%string
    ∧ valueOf h' this = of_Z (-1).
Proof.
  eexists _, _. split; [vm_compute; reflexivity|]. split; vm_compute; reflexivity.
Qed.

Example max_int64_saturates :
  ∃ h' this,
    Int64_new (λ _, 0) ∅ (NewValue (Args1 (VString "7fffffffffffffff"))) = Normal (h', this)
    ∧ valueOf h' this = Inf false.
Proof. eexists _, _. split; [vm_compute; reflexivity|]. vm_compute. reflexivity. Qed.

Example unparsed_string_is_zero :
  ∃ h' this,
    Int64_new (λ _, 0) ∅ (NewValue (Args1 (VString "zz"))) = Normal (h', this)
    ∧ buf h' (buffer this) = [0; 0; 0; 0; 0; 0; 0; 0].
Proof. eexists _, _. split; [vm_compute; reflexivity|]. vm_compute. reflexivity. Qed.

Example unsupported_argument_throws :
  Int64_new (λ _, 0) ∅ (NewValue (Args1 VOther)) = Throw Error.
Proof. reflexivity. Qed.

(** ** Further properties of [valueOf] *)

(** X1: an Int64 whose eight octets start at index 0 of its Buffer reads as
    the two's-complement value of those octets when its magnitude is below
    2^53, and as the infinity of its sign otherwise. *)
Theorem valueOf_decodes_twos_complement (h : heap) (this : Int64) (b : list Z) :
  h !! buffer this = Some b → offset this = 0 →
  (8 ≤ length b)%nat → octets b →
  valueOf h this =
    let n := int64_value (take 8 b) in
    if MAX_INT <=? Z.abs n then Inf (n <? 0) else of_Z n.
Proof.
  intros Hh Ho Hlen Hoct.
  apply (valueOf_at_offset_0 h this (take 8 b) (drop 8 b)).
  - by rewrite take_drop.
  - done.
  - rewrite length_take. lia.
  - by apply Forall_take.
Qed.

Lemma valueOf_decodes_twos_complement_witness :
  let b := [255; 255; 255; 255; 255; 255; 255; 214; 7] in
  let h : heap := {[ 1%positive := b ]} in
  let this := {| buffer := 1%positive; offset := 0 |} in
  h !! buffer this = Some b ∧ offset this = 0 ∧ (8 ≤ length b)%nat ∧ octets b
  ∧ valueOf h this = of_Z (-42).
Proof.
  intros b h this.
  assert (Hh : h !! buffer this = Some b) by reflexivity.
  assert (Ho : offset this = 0) by reflexivity.
  assert (Hlen : (8 ≤ length b)%nat) by (simpl; lia).
  assert (Hb : octets b) by (repeat constructor; unfold octet; lia).
  repeat (split; [assumption|]).
  exact (valueOf_decodes_twos_complement h this b Hh Ho Hlen Hb).
Defined.

Lemma round53_nonneg z : 0 ≤ z → 0 ≤ round53 z.
Proof.
  intros Hz. unfold round53.
  destruct (Z.log2 (Z.abs z) - 52 <=? 0); [done|].
  apply Z.mul_nonneg_nonneg; [by apply Z.sgn_nonneg|].
  apply Z.shiftl_nonneg.
  assert (0 ≤ Z.shiftr (Z.abs z) (Z.log2 (Z.abs z) - 52)) by (apply Z.shiftr_nonneg; lia).
  destruct (_ || _); lia.
Qed.

Lemma valueOf_fold_nonneg (b : list Z) o negate (idx : list Z) x c :
  0 ≤ x → Forall (λ i, 0 ≤ i) idx →
  0 ≤ (foldl (valueOf_step b o negate) (x, c) idx).1.
Proof.
  intros Hx Hidx. revert x c Hx.
  induction Hidx as [|i idx Hi _ IH]; intros x c Hx; [done|].
  cbn [foldl]. unfold valueOf_step at 2.
  destruct (if negate =? 0 then _ else _) as [v c'].
  apply IH. apply round53_nonneg.
  assert (0 ≤ Z.land v 255) by (apply Z.land_nonneg; lia).
  assert (0 ≤ 256 ^ i) by (apply Z.pow_nonneg; lia).
  nia.
Qed.

Lemma valueOf_cases (h : heap) (this : Int64) :
  (∃ negative, valueOf h this = Inf negative)
  ∨ (∃ z, MIN_INT < z < MAX_INT ∧ valueOf h this = of_Z z).
Proof.
  unfold valueOf.
  pose proof (valueOf_fold_nonneg (buf h (buffer this)) (offset this)
    (Z.land (elem (buf h (buffer this)) 0) 128) (seqZ 0 8) 0 1) as Hnn.
  destruct (foldl _ _ _) as [x c]. cbn [fst] in Hnn.
  assert (Hx : 0 ≤ x).
  { apply Hnn; [lia|]. apply Forall_seqZ. lia. }
  unfold MIN_INT, MAX_INT.
  destruct (Z.leb_spec (2 ^ 53) x); [left; eauto|].
  right. destruct (_ =? 0); eexists; (split; [|reflexivity]); lia.
Qed.

(** X2: whatever the heap holds, [valueOf] returns an infinity or an integer
    strictly between [MIN_INT] and [MAX_INT]: never [NaN], never a fraction,
    never a finite number outside the safe range. *)
Theorem valueOf_infinite_or_safe_integer (h : heap) (this : Int64) :
  (∃ negative, valueOf h this = Inf negative)
  ∨ (∃ z, MIN_INT < z < MAX_INT ∧ valueOf h this = of_Z z).
Proof. apply valueOf_cases. Qed.

(** ** Further properties of [setValue] *)

Lemma halves_of_magnitude a :
  0 ≤ a → (a / 2 ^ 32 mod 2 ^ 32) * 2 ^ 32 + a mod 2 ^ 32 = a mod 2 ^ 64.
Proof.
  intros Ha.
  change (2 ^ 64) with (2 ^ 32 * 2 ^ 32).
  rewrite Z.rem_mul_r by lia. lia.
Qed.

Lemma be_value_of_integer n :
  Z.abs n ≤ 2 ^ 64 →
  be_value (stored_octets (n <? 0)
              (of_Z (Z.lor (ToInt32 (Num (Z.abs n # 4294967296))) 0))
              (of_Z (Z.rem (Z.abs n) VAL32)))
  = n mod 2 ^ 64.
Proof.
  intros Hn. rewrite be_value_stored. cbn zeta.
  rewrite ToUint32_lor_0, ToUint32_quotient, ToUint32_of_Z by lia.
  rewrite Z.rem_mod_nonneg by (unfold VAL32; lia).
  change VAL32 with (2 ^ 32). rewrite Z.mod_mod by lia.
  rewrite halves_of_magnitude by lia.
  destruct (Z.ltb_spec n 0).
  - replace (Z.abs n) with (- n) by lia.
    rewrite Zminus_mod_idemp_r.
    replace (2 ^ 64 - - n) with (n + 1 * 2 ^ 64) by lia. by rewrite Z.mod_add.
  - f_equal. lia.
Qed.

Section NumericConstruction.

Context (mem : nat → Z) (h : heap).

(** X3: for an integer [n] of magnitude up to 2^64 the numeric path stores
    [n] modulo 2^64, most significant octet first: the two's complement of
    [n] when it fits in 64 bits, and a silent wrap-around (no range error)
    from 2^63 to 2^64. *)
Theorem number_stores_twos_complement (n : Z) :
  Z.abs n ≤ 2 ^ 64 →
  ∃ h' this,
    Int64_new mem h (NewValue (Args1 (VNumber (of_Z n)))) = Normal (h', this)
    ∧ length (buf h' (buffer this)) = 8%nat
    ∧ be_value (buf h' (buffer this)) = n mod 2 ^ 64.
Proof.
  intros Hn. eexists _, _. split.
  { apply Int64_new_value. by apply setValue_args_integer. }
  unfold buf. cbn [buffer]. rewrite lookup_insert_eq. cbn [default from_option]. unfold id.
  split; [apply length_stored_octets | by apply be_value_of_integer].
Qed.

(** X4: constructing from an integer [n] of magnitude up to 2^64 and reading
    it back gives [n] wrapped to a signed 64-bit value [v], as [v] itself
    below 2^53 in magnitude and as the infinity of the sign of [v] from
    there on. *)
Theorem number_then_valueOf (n : Z) :
  Z.abs n ≤ 2 ^ 64 →
  ∃ h' this,
    Int64_new mem h (NewValue (Args1 (VNumber (of_Z n)))) = Normal (h', this)
    ∧ valueOf h' this =
        let u := n mod 2 ^ 64 in
        let v := if 2 ^ 63 <=? u then u - 2 ^ 64 else u in
        if MAX_INT <=? Z.abs v then Inf (v <? 0) else of_Z v.
Proof.
  intros Hn. eexists _, _. split.
  { apply Int64_new_value. by apply setValue_args_integer. }
  set (hi := of_Z (Z.lor _ 0)). set (lo := of_Z (Z.rem _ _)).
  rewrite (valueOf_at_offset_0 _ _ (stored_octets (n <? 0) hi lo) [])
    by auto with octets.
  unfold int64_value. subst hi lo. by rewrite be_value_of_integer.
Qed.

End NumericConstruction.

Lemma number_stores_twos_complement_witness :
  Z.abs (-2) ≤ 2 ^ 64
  ∧ ∃ h' this,
      Int64_new (λ _, 0) ∅ (NewValue (Args1 (VNumber (of_Z (-2))))) = Normal (h', this)
      ∧ length (buf h' (buffer this)) = 8%nat
      ∧ be_value (buf h' (buffer this)) = 2 ^ 64 - 2.
Proof.
  assert (Hn : Z.abs (-2) ≤ 2 ^ 64) by (vm_compute; discriminate).
  split; [exact Hn|]. exact (number_stores_twos_complement (λ _, 0) ∅ (-2) Hn).
Defined.

Lemma number_then_valueOf_witness :
  Z.abs (2 ^ 63) ≤ 2 ^ 64
  ∧ ∃ h' this,
      Int64_new (λ _, 0) ∅ (NewValue (Args1 (VNumber (of_Z (2 ^ 63))))) = Normal (h', this)
      ∧ valueOf h' this = Inf true.
Proof.
  assert (Hn : Z.abs (2 ^ 63) ≤ 2 ^ 64) by (vm_compute; discriminate).
  split; [exact Hn|]. exact (number_then_valueOf (λ _, 0) ∅ (2 ^ 63) Hn).
Defined.


Lemma region_middle (pre mid post : list Z) :
  length mid = 8%nat → region (pre ++ mid ++ post) (Z.of_nat (length pre)) = mid.
Proof.
  intros Hmid. unfold region. rewrite Nat2Z.id, drop_app_length.
  rewrite take_app_length'; done.
Qed.

Lemma setValue_in_bounds (h : heap) (this : Int64) (args : arguments) (b : list Z) :
  h !! buffer this = Some b →
  0 ≤ offset this → offset this + 8 ≤ Z.of_nat (length b) →
  ∃ pre post,
    length pre = Z.to_nat (offset this)
    ∧ b = pre ++ region b (offset this) ++ post
    ∧ setValue h this args =
        match setValue_args args with
        | Throw e => Throw e
        | Normal (negate, hi, lo) =>
            Normal (<[buffer this := pre ++ stored_octets negate hi lo ++ post]> h)
        end.
Proof.
  intros Hh Ho Hlen.
  destruct (region_split b (offset this) Ho Hlen) as (pre & mid & post & -> & Hpre & Hmid).
  exists pre, post. rewrite Hpre, region_middle by done.
  split; [lia|]. split; [done|].
  destruct (setValue_args args) as [[[negate hi] lo]|e] eqn:Hargs.
  - by apply (setValue_region h this args negate hi lo pre mid post).
  - unfold setValue. by rewrite Hargs.
Qed.

(** X6: the eight octets a successful [setValue] leaves depend on the
    arguments only, not on the object, the offset or the previous contents of
    the Buffer it writes through: every octet of the region is overwritten. *)
Theorem setValue_octets_depend_on_arguments_only
    (h1 h2 h1' h2' : heap) (this1 this2 : Int64) (b1 b2 : list Z) (args : arguments) :
  h1 !! buffer this1 = Some b1 →
  0 ≤ offset this1 → offset this1 + 8 ≤ Z.of_nat (length b1) →
  h2 !! buffer this2 = Some b2 →
  0 ≤ offset this2 → offset this2 + 8 ≤ Z.of_nat (length b2) →
  setValue h1 this1 args = Normal h1' →
  setValue h2 this2 args = Normal h2' →
  region (buf h1' (buffer this1)) (offset this1)
  = region (buf h2' (buffer this2)) (offset this2).
Proof.
  intros Hh1 Ho1 Hlen1 Hh2 Ho2 Hlen2 Hset1 Hset2.
  destruct (setValue_in_bounds h1 this1 args b1 Hh1 Ho1 Hlen1)
    as (pre1 & post1 & Hpre1 & _ & E1).
  destruct (setValue_in_bounds h2 this2 args b2 Hh2 Ho2 Hlen2)
    as (pre2 & post2 & Hpre2 & _ & E2).
  rewrite Hset1 in E1. rewrite Hset2 in E2.
  destruct (setValue_args args) as [[[negate hi] lo]|e]; [|discriminate].
  injection E1 as ->. injection E2 as ->.
  unfold buf. rewrite !lookup_insert_eq. cbn [default from_option]. unfold id.
  replace (offset this1) with (Z.of_nat (length pre1)) by lia.
  replace (offset this2) with (Z.of_nat (length pre2)) by lia.
  by rewrite !region_middle by apply length_stored_octets.
Qed.

Lemma setValue_octets_depend_on_arguments_only_witness :
  let b1 := [1; 2; 3; 4; 5; 6; 7; 8; 9; 10] in
  let b2 := [0; 0; 0; 0; 0; 0; 0; 0] in
  let h1 : heap := {[ 1%positive := b1 ]} in
  let h2 : heap := {[ 5%positive := b2 ]} in
  let this1 := {| buffer := 1%positive; offset := 2 |} in
  let this2 := {| buffer := 5%positive; offset := 0 |} in
  let args := Args1 (VString "0x1f") in
  let h1' : heap := {[ 1%positive := [1; 2; 0; 0; 0; 0; 0; 0; 0; 31] ]} in
  let h2' : heap := {[ 5%positive := [0; 0; 0; 0; 0; 0; 0; 31] ]} in
  h1 !! buffer this1 = Some b1
  ∧ 0 ≤ offset this1 ∧ offset this1 + 8 ≤ Z.of_nat (length b1)
  ∧ h2 !! buffer this2 = Some b2
  ∧ 0 ≤ offset this2 ∧ offset this2 + 8 ≤ Z.of_nat (length b2)
  ∧ setValue h1 this1 args = Normal h1'
  ∧ setValue h2 this2 args = Normal h2'
  ∧ region (buf h1' (buffer this1)) (offset this1)
    = region (buf h2' (buffer this2)) (offset this2).
Proof.
  intros b1 b2 h1 h2 this1 this2 args h1' h2'.
  assert (Hh1 : h1 !! buffer this1 = Some b1) by reflexivity.
  assert (Ho1 : 0 ≤ offset this1) by (simpl; lia).
  assert (Hlen1 : offset this1 + 8 ≤ Z.of_nat (length b1)) by (simpl; lia).
  assert (Hh2 : h2 !! buffer this2 = Some b2) by reflexivity.
  assert (Ho2 : 0 ≤ offset this2) by (simpl; lia).
  assert (Hlen2 : offset this2 + 8 ≤ Z.of_nat (length b2)) by (simpl; lia).
  assert (Hset1 : setValue h1 this1 args = Normal h1') by (vm_compute; reflexivity).
  assert (Hset2 : setValue h2 this2 args = Normal h2') by (vm_compute; reflexivity).
  repeat (split; [assumption|]).
  exact (setValue_octets_depend_on_arguments_only h1 h2 h1' h2' this1 this2 b1 b2 args
           Hh1 Ho1 Hlen1 Hh2 Ho2 Hlen2 Hset1 Hset2).
Defined.

(** X7: the last [setValue] wins: after a successful call, a second call
    through the same object behaves, and leaves the heap, exactly as if the
    first had not been made. *)
Theorem setValue_last_write_wins
    (h h1 : heap) (this : Int64) (b : list Z) (args1 args2 : arguments) :
  h !! buffer this = Some b →
  0 ≤ offset this → offset this + 8 ≤ Z.of_nat (length b) →
  setValue h this args1 = Normal h1 →
  setValue h1 this args2 = setValue h this args2.
Proof.
  intros Hh Ho Hlen Hset1.
  destruct (setValue_in_bounds h this args1 b Hh Ho Hlen) as (pre & post & Hpre & Hb & E1).
  rewrite Hset1 in E1.
  destruct (setValue_args args1) as [[[negate1 hi1] lo1]|e1]; [|discriminate].
  injection E1 as ->.
  assert (Hmid : length (region b (offset this)) = 8%nat).
  { unfold region. rewrite length_take, length_drop. lia. }
  destruct (setValue_args args2) as [[[negate2 hi2] lo2]|e2] eqn:Hargs2.
  - rewrite (setValue_region h this args2 negate2 hi2 lo2 pre (region b (offset this)) post)
      by (done || (by rewrite <- Hb) || lia).
    rewrite (setValue_region _ this args2 negate2 hi2 lo2 pre (stored_octets negate1 hi1 lo1) post);
      [| done | apply lookup_insert_eq | lia | apply length_stored_octets].
    by rewrite insert_insert_eq.
  - unfold setValue. by rewrite Hargs2.
Qed.

Lemma setValue_last_write_wins_witness :
  let b := [1; 2; 3; 4; 5; 6; 7; 8] in
  let h : heap := {[ 1%positive := b ]} in
  let this := {| buffer := 1%positive; offset := 0 |} in
  let args1 := Args1 (VNumber (of_Z (-1))) in
  let args2 := Args2 (of_Z 1) (of_Z 2) in
  let h1 : heap := {[ 1%positive := [255; 255; 255; 255; 255; 255; 255; 255] ]} in
  h !! buffer this = Some b
  ∧ 0 ≤ offset this ∧ offset this + 8 ≤ Z.of_nat (length b)
  ∧ setValue h this args1 = Normal h1
  ∧ setValue h1 this args2 = setValue h this args2.
Proof.
  intros b h this args1 args2 h1.
  assert (Hh : h !! buffer this = Some b) by reflexivity.
  assert (Ho : 0 ≤ offset this) by (simpl; lia).
  assert (Hlen : offset this + 8 ≤ Z.of_nat (length b)) by (simpl; lia).
  assert (Hset : setValue h this args1 = Normal h1) by (vm_compute; reflexivity).
  repeat (split; [assumption|]).
  exact (setValue_last_write_wins h h1 this b args1 args2 Hh Ho Hlen Hset).
Defined.

(** ** Further properties of [_2scomp] *)

Lemma be_value_range (mid : list Z) :
  length mid = 8%nat → octets mid → 0 ≤ be_value mid < 2 ^ 64.
Proof.
  intros Hlen Hoct. unfold be_value.
  pose proof (le_value_range (reverse mid)) as Hr.
  rewrite length_reverse, Hlen in Hr. apply Hr. by apply octets_reverse.
Qed.

(** X8: [_2scomp] negates: on eight octets within the Buffer it replaces
    the unsigned value [u] they write by [2^64 - u] modulo 2^64, so the
    signed value [v] becomes [-v], except that -2^63, like 0, is left as it
    is. *)
Theorem twos_complement_negates (h : heap) (this : Int64) (b : list Z) :
  h !! buffer this = Some b → octets b →
  0 ≤ offset this → offset this + 8 ≤ Z.of_nat (length b) →
  let before := region b (offset this) in
  let after := region (buf (_2scomp h this) (buffer this)) (offset this) in
  be_value after = (2 ^ 64 - be_value before) mod 2 ^ 64
  ∧ int64_value after
    = if int64_value before =? - 2 ^ 63 then - 2 ^ 63 else - int64_value before.
Proof.
  intros Hh Hb Ho Hlen.
  destruct (region_split b (offset this) Ho Hlen) as (pre & mid & post & -> & Hpre & Hmid).
  apply octets_app in Hb as [_ Hb]. apply octets_app in Hb as [Hb _].
  unfold _2scomp, buf. rewrite lookup_alter_eq, Hh.
  cbn [fmap option_fmap option_map default from_option]. unfold id.
  rewrite Hpre, _2scomp_buf_region by done.
  rewrite !region_middle by (done || by rewrite length_reverse, length_comp, length_reverse).
  cbn zeta.
  assert (Hneg : be_value (reverse (comp 1 (reverse mid)))
                 = (2 ^ 64 - be_value mid) mod 2 ^ 64).
  { rewrite be_value_reverse.
    by rewrite comp_value_8 by (by apply octets_reverse || by rewrite length_reverse). }
  split; [done|].
  unfold int64_value. rewrite Hneg.
  pose proof (be_value_range mid Hmid Hb) as Hr.
  destruct (Z.eq_dec (be_value mid) 0) as [-> | Hnz].
  - reflexivity.
  - rewrite Z.mod_small by lia.
    destruct (Z.leb_spec (2 ^ 63) (be_value mid)),
             (Z.leb_spec (2 ^ 63) (2 ^ 64 - be_value mid));
      match goal with |- context [?x =? ?y] => destruct (Z.eqb_spec x y) end; lia.
Qed.

Lemma twos_complement_negates_witness :
  let b := [9; 0; 0; 0; 0; 0; 0; 0; 42] in
  let h : heap := {[ 1%positive := b ]} in
  let this := {| buffer := 1%positive; offset := 1 |} in
  h !! buffer this = Some b ∧ octets b
  ∧ 0 ≤ offset this ∧ offset this + 8 ≤ Z.of_nat (length b)
  ∧ be_value (region (buf (_2scomp h this) (buffer this)) (offset this)) = 2 ^ 64 - 42
  ∧ int64_value (region (buf (_2scomp h this) (buffer this)) (offset this)) = - 42.
Proof.
  intros b h this.
  assert (Hh : h !! buffer this = Some b) by reflexivity.
  assert (Hb : octets b) by (repeat constructor; unfold octet; lia).
  assert (Ho : 0 ≤ offset this) by (simpl; lia).
  assert (Hlen : offset this + 8 ≤ Z.of_nat (length b)) by (simpl; lia).
  repeat (split; [assumption|]).
  exact (twos_complement_negates h this b Hh Hb Ho Hlen).
Defined.

(** X9: [_2scomp] touches nothing but its own eight octets: every other
    Buffer, the length of its own Buffer and every octet outside
    [offset, offset + 8) are as before, whatever the offset and the size of
    the Buffer. *)
Theorem twos_complement_frame (h : heap) (this : Int64) :
  (∀ l, l ≠ buffer this → _2scomp h this !! l = h !! l)
  ∧ length (buf (_2scomp h this) (buffer this)) = length (buf h (buffer this))
  ∧ (∀ j, ¬ (offset this ≤ j < offset this + 8) →
       get (buf (_2scomp h this) (buffer this)) j = get (buf h (buffer this)) j).
Proof.
  unfold _2scomp, buf. split; [|split].
  - intros l Hl. by rewrite lookup_alter_ne.
  - rewrite lookup_alter_eq. destruct (h !! buffer this) as [b|]; cbn; [|done].
    by destruct (_2scomp_buf_frame b (offset this) (offset this - 1)) as [_ ->]; [lia|].
  - intros j Hj. rewrite lookup_alter_eq.
    destruct (h !! buffer this) as [b|]; cbn; [|done].
    by destruct (_2scomp_buf_frame b (offset this) j Hj) as [-> _].
Qed.

(** ** Owned storage *)

(** X10: an Int64 constructed from a value owns a new Buffer of eight
    octets at offset 0 that no existing Buffer aliases; the Buffers that
    were there are untouched; and neither the object nor the heap depends
    on what the uninitialised memory of [new Buffer(8)] held. *)
Theorem owned_construction (mem : nat → Z) (h h' : heap) (this : Int64) (args : arguments) :
  Int64_new mem h (NewValue args) = Normal (h', this) →
  h !! buffer this = None
  ∧ offset this = 0
  ∧ (∀ l, l ≠ buffer this → h' !! l = h !! l)
  ∧ length (buf h' (buffer this)) = 8%nat
  ∧ octets (buf h' (buffer this))
  ∧ (∀ mem', Int64_new mem' h (NewValue args) = Normal (h', this)).
Proof.
  intros Hnew.
  destruct (setValue_args args) as [[[negate hi] lo]|e] eqn:Hargs.
  - rewrite (Int64_new_value mem h args negate hi lo Hargs) in Hnew.
    injection Hnew as <- <-. cbn [buffer offset].
    split; [apply not_elem_of_dom, is_fresh|]. split; [done|].
    split; [intros l Hl; by rewrite lookup_insert_ne|].
    unfold buf. rewrite lookup_insert_eq. cbn [default from_option]. unfold id.
    split; [apply length_stored_octets|]. split; [apply octets_stored_octets|].
    intros mem'. by apply Int64_new_value.
  - by rewrite (Int64_new_throw mem h args e Hargs) in Hnew.
Qed.

Lemma owned_construction_witness :
  let h : heap := {[ 1%positive := [1; 2; 3] ]} in
  let args := Args1 (VNumber (of_Z 5)) in
  let this := {| buffer := 2%positive; offset := 0 |} in
  let h' : heap := <[ 2%positive := [0; 0; 0; 0; 0; 0; 0; 5] ]> h in
  Int64_new (λ _, 7) h (NewValue args) = Normal (h', this)
  ∧ h !! buffer this = None
  ∧ offset this = 0
  ∧ (∀ l, l ≠ buffer this → h' !! l = h !! l)
  ∧ length (buf h' (buffer this)) = 8%nat
  ∧ octets (buf h' (buffer this))
  ∧ (∀ mem', Int64_new mem' h (NewValue args) = Normal (h', this)).
Proof.
  intros h args this h'.
  assert (Hnew : Int64_new (λ _, 7) h (NewValue args) = Normal (h', this))
    by (vm_compute; reflexivity).
  split; [exact Hnew|]. exact (owned_construction (λ _, 7) h h' this args Hnew).
Defined.

(** ** Further properties of [toOctetString] *)

Lemma hex_char_facts d :
  0 ≤ d < 16 →
  hex_digit (hex_char d) = Some d ∧ lower (hex_char d) = hex_char d
  ∧ hex_char d ≠ "x"%char.
Proof.
  intros Hd.
  pose (f d := if d <? 16
               then match hex_digit (hex_char d) with
                    | Some d' => (d' =? d) && Ascii.eqb (lower (hex_char d)) (hex_char d)
                                 && negb (Ascii.eqb (hex_char d) "x")
                    | None => false
                    end
               else true).
  assert (Hf : f d = true).
  { apply octet_cases; [vm_compute; reflexivity | unfold octet; lia]. }
  unfold f in Hf. destruct (Z.ltb_spec d 16); [|lia].
  destruct (hex_digit (hex_char d)) as [d'|]; [|discriminate].
  apply andb_prop in Hf as [Hf Hx]. apply andb_prop in Hf as [Hd' Hl].
  apply Z.eqb_eq in Hd'. apply Ascii.eqb_eq in Hl.
  apply negb_true_iff, Ascii.eqb_neq in Hx. by subst.
Qed.

Lemma octet_digits v : octet v → 0 ≤ v / 16 < 16 ∧ 0 ≤ v mod 16 < 16.
Proof.
  unfold octet. intros Hv. split.
  - split; [apply Z.div_pos; lia | apply Z.div_lt_upper_bound; lia].
  - apply Z.mod_pos_bound. lia.
Qed.

Lemma hex_octet_inj v w : octet v → octet w → hex_octet v = hex_octet w → v = w.
Proof.
  intros Hv Hw [= H1 H2].
  destruct (octet_digits v Hv) as [Hv1 Hv2]. destruct (octet_digits w Hw) as [Hw1 Hw2].
  apply (f_equal hex_digit) in H1, H2.
  rewrite (proj1 (hex_char_facts (v / 16) Hv1)), (proj1 (hex_char_facts (w / 16) Hw1)) in H1.
  rewrite (proj1 (hex_char_facts (v mod 16) Hv2)), (proj1 (hex_char_facts (w mod 16) Hw2)) in H2.
  injection H1 as H1. injection H2 as H2.
  rewrite (Z.div_mod v 16), (Z.div_mod w 16) by lia. by rewrite H1, H2.
Qed.

Lemma append_inj_l (s t u : string) : append s t = append s u → t = u.
Proof. induction s as [|c s IH]; cbn; [done|]. intros [= H]. by apply IH. Qed.

Lemma concat_hex_octet_inj sep (a b : list Z) :
  length a = length b → octets a → octets b →
  String.concat sep (hex_octet <$> a) = String.concat sep (hex_octet <$> b) → a = b.
Proof.
  unfold octets. intros Hlen Ha. revert b Hlen.
  induction Ha as [|x a Hx Ha IH]; intros [|y b] Hlen Hb Heq; try discriminate; [done|].
  apply Forall_cons in Hb as [Hy Hb].
  destruct a as [|x' a], b as [|y' b]; try discriminate.
  - cbn in Heq. f_equal. by apply hex_octet_inj.
  - change (append (hex_octet x) (append sep (String.concat sep (hex_octet <$> x' :: a)))
            = append (hex_octet y) (append sep (String.concat sep (hex_octet <$> y' :: b))))
      in Heq.
    unfold hex_octet at 1 3 in Heq. cbn [append] in Heq.
    injection Heq as H1 H2 Hrest. apply (append_inj_l sep) in Hrest.
    f_equal.
    + apply hex_octet_inj; [done | done |]. unfold hex_octet. by rewrite H1, H2.
    + apply IH; [cbn in *; lia | done | exact Hrest].
Qed.

Lemma length_region (b : list Z) o :
  0 ≤ o → o + 8 ≤ Z.of_nat (length b) → length (region b o) = 8%nat.
Proof. intros Ho Hlen. unfold region. rewrite length_take, length_drop. lia. Qed.

Lemma octets_region (b : list Z) o : octets b → octets (region b o).
Proof. intros Hb. unfold region. by apply Forall_take, Forall_drop. Qed.

Lemma toOctetString_in_bounds (h : heap) (this : Int64) (b : list Z) sep :
  h !! buffer this = Some b → octets b →
  0 ≤ offset this → offset this + 8 ≤ Z.of_nat (length b) →
  toOctetString h this sep
  = String.concat (default EmptyString sep) (hex_octet <$> region b (offset this)).
Proof.
  intros Hh Hb Ho Hlen.
  destruct (region_split b (offset this) Ho Hlen) as (pre & mid & post & -> & Hpre & Hmid).
  apply octets_app in Hb as [_ Hb]. apply octets_app in Hb as [Hb _].
  rewrite Hpre, region_middle by done.
  by apply (toOctetString_region h this pre mid post).
Qed.

(** X11: the octet string loses nothing: two Int64 values, each over eight
    octets within its Buffer, that render to the same string with the same
    separator hold the same eight octets. *)
Theorem toOctetString_injective
    (h1 h2 : heap) (this1 this2 : Int64) (b1 b2 : list Z) (sep : option string) :
  h1 !! buffer this1 = Some b1 → octets b1 →
  0 ≤ offset this1 → offset this1 + 8 ≤ Z.of_nat (length b1) →
  h2 !! buffer this2 = Some b2 → octets b2 →
  0 ≤ offset this2 → offset this2 + 8 ≤ Z.of_nat (length b2) →
  toOctetString h1 this1 sep = toOctetString h2 this2 sep →
  region b1 (offset this1) = region b2 (offset this2).
Proof.
  intros Hh1 Hb1 Ho1 Hlen1 Hh2 Hb2 Ho2 Hlen2.
  rewrite (toOctetString_in_bounds h1 this1 b1) by done.
  rewrite (toOctetString_in_bounds h2 this2 b2) by done.
  apply concat_hex_octet_inj.
  - by rewrite !length_region.
  - by apply octets_region.
  - by apply octets_region.
Qed.

Lemma toOctetString_injective_witness :
  let b1 := [0; 1; 2; 3; 4; 5; 6; 7; 8] in
  let b2 := [1; 2; 3; 4; 5; 6; 7; 8; 9; 9] in
  let h1 : heap := {[ 1%positive := b1 ]} in
  let h2 : heap := {[ 2%positive := b2 ]} in
  let this1 := {| buffer := 1%positive; offset := 1 |} in
  let this2 := {| buffer := 2%positive; offset := 0 |} in
  let sep := Some ":"%string in
  h1 !! buffer this1 = Some b1 ∧ octets b1
  ∧ 0 ≤ offset this1 ∧ offset this1 + 8 ≤ Z.of_nat (length b1)
  ∧ h2 !! buffer this2 = Some b2 ∧ octets b2
  ∧ 0 ≤ offset this2 ∧ offset this2 + 8 ≤ Z.of_nat (length b2)
  ∧ toOctetString h1 this1 sep = toOctetString h2 this2 sep
  ∧ region b1 (offset this1) = region b2 (offset this2).
Proof.
  intros b1 b2 h1 h2 this1 this2 sep.
  assert (Hh1 : h1 !! buffer this1 = Some b1) by reflexivity.
  assert (Hb1 : octets b1) by (repeat constructor; unfold octet; lia).
  assert (Ho1 : 0 ≤ offset this1) by (simpl; lia).
  assert (Hlen1 : offset this1 + 8 ≤ Z.of_nat (length b1)) by (simpl; lia).
  assert (Hh2 : h2 !! buffer this2 = Some b2) by reflexivity.
  assert (Hb2 : octets b2) by (repeat constructor; unfold octet; lia).
  assert (Ho2 : 0 ≤ offset this2) by (simpl; lia).
  assert (Hlen2 : offset this2 + 8 ≤ Z.of_nat (length b2)) by (simpl; lia).
  assert (Heq : toOctetString h1 this1 sep = toOctetString h2 this2 sep)
    by (vm_compute; reflexivity).
  repeat (split; [assumption|]).
  exact (toOctetString_injective h1 h2 this1 this2 b1 b2 sep
           Hh1 Hb1 Ho1 Hlen1 Hh2 Hb2 Ho2 Hlen2 Heq).
Defined.

Lemma hex_string_hex_octet v s :
  octet v → hex_string s → hex_string (append (hex_octet v) s).
Proof.
  intros Hv Hs. destruct (octet_digits v Hv) as [H1 H2].
  unfold hex_octet.
  change (append (String ?a (String ?b EmptyString)) ?t) with (String a (String b t)).
  apply hex_string_cons. split; [rewrite (proj1 (hex_char_facts _ H1)); by eexists|].
  apply hex_string_cons. split; [rewrite (proj1 (hex_char_facts _ H2)); by eexists|].
  done.
Qed.

Lemma octet_string_is_hex16 (mid : list Z) :
  length mid = 8%nat → octets mid →
  let s := String.concat EmptyString (hex_octet <$> mid) in
  String.length s = 16%nat ∧ hex_string s ∧ toLowerCase s = s ∧ strip_0x s = s.
Proof.
  intros Hlen Hoct. eight_octets mid Hlen. split_octets.
  cbn [fmap list_fmap String.concat]. cbn zeta.
  split; [reflexivity|]. split; [|split].
  - change (append EmptyString ?x) with x.
    repeat (apply hex_string_hex_octet; [done|]). constructor.
  - unfold hex_octet. cbv [append]. cbn [toLowerCase].
    repeat match goal with
      | Hv : octet ?v |- _ => destruct (octet_digits v Hv); clear Hv
      end.
    repeat match goal with
      | Hd : 0 ≤ ?d < 16 |- _ =>
          let Hl := fresh in
          destruct (hex_char_facts d Hd) as (_ & Hl & _); rewrite !Hl; clear Hd Hl
      end.
    reflexivity.
  - destruct (octet_digits z H) as [Hd1 Hd2].
    unfold hex_octet at 1 2.
    change (append (String ?a (String ?b EmptyString)) ?t) with (String a (String b t)).
    apply strip_0x_no_x. by apply hex_char_facts.
Qed.

(** X12: the octet string reads back: constructing an Int64 from the octet
    string (no separator) of an Int64 over eight octets within its Buffer
    gives an Int64 that owns those same eight octets. *)
Theorem octet_string_reconstructs
    (mem : nat → Z) (h : heap) (this : Int64) (b : list Z) :
  h !! buffer this = Some b → octets b →
  0 ≤ offset this → offset this + 8 ≤ Z.of_nat (length b) →
  ∃ h' that,
    Int64_new mem h (NewValue (Args1 (VString (toOctetString h this None))))
    = Normal (h', that)
    ∧ buf h' (buffer that) = region b (offset this).
Proof.
  intros Hh Hb Ho Hlen.
  rewrite (toOctetString_in_bounds h this b) by done. cbn [default from_option]. unfold id.
  pose proof (length_region b (offset this) Ho Hlen) as Hmid.
  pose proof (octets_region b (offset this) Hb) as Hoct.
  destruct (octet_string_is_hex16 _ Hmid Hoct) as (Hlen16 & Hhex & Hlow & Hstrip).
  destruct (hex16_setValue_octets _ _ Hlen16 Hhex Hstrip) as (hi & lo & Hargs & Hstored).
  eexists _, _. split; [by apply Int64_new_value|].
  unfold buf. cbn [buffer]. rewrite lookup_insert_eq. cbn [default from_option]. unfold id.
  rewrite Hlow in Hstored.
  apply (concat_hex_octet_inj EmptyString).
  - by rewrite length_stored_octets.
  - apply octets_stored_octets.
  - done.
  - done.
Qed.

Lemma octet_string_reconstructs_witness :
  let b := [7; 0x12; 0x34; 0x56; 0x78; 0x9a; 0xbc; 0xde; 0xf0] in
  let h : heap := {[ 1%positive := b ]} in
  let this := {| buffer := 1%positive; offset := 1 |} in
  h !! buffer this = Some b ∧ octets b
  ∧ 0 ≤ offset this ∧ offset this + 8 ≤ Z.of_nat (length b)
  ∧ ∃ h' that,
      Int64_new (λ _, 0) h (NewValue (Args1 (VString (toOctetString h this None))))
      = Normal (h', that)
      ∧ buf h' (buffer that) = [0x12; 0x34; 0x56; 0x78; 0x9a; 0xbc; 0xde; 0xf0].
Proof.
  intros b h this.
  assert (Hh : h !! buffer this = Some b) by reflexivity.
  assert (Hb : octets b) by (repeat constructor; unfold octet; lia).
  assert (Ho : 0 ≤ offset this) by (simpl; lia).
  assert (Hlen : offset this + 8 ≤ Z.of_nat (length b)) by (simpl; lia).
  repeat (split; [assumption|]).
  exact (octet_string_reconstructs (λ _, 0) h this b Hh Hb Ho Hlen).
Defined.

(** ** Hex strings of up to 16 digits *)

Lemma substring_list (a m : nat) (s : string) :
  list_ascii_of_string (substring a m s) = take m (drop a (list_ascii_of_string s)).
Proof.
  revert a m. induction s as [|c s IH]; intros [|a] [|m]; cbn; try done.
  by rewrite (IH 0%nat m), drop_0.
Qed.

Lemma length_list_ascii (s : string) :
  length (list_ascii_of_string s) = String.length s.
Proof. induction s as [|c s IH]; cbn; [done | by rewrite IH]. Qed.

Lemma leading_digits_hex (s : string) :
  hex_string s → leading_digits s = digit_values (list_ascii_of_string s).
Proof.
  induction s as [|c s IH]; [done|].
  intros Hs. apply hex_string_cons in Hs as [[d Hd] Hs].
  cbn [leading_digits list_ascii_of_string]. unfold digit_values. cbn [fmap list_fmap].
  rewrite Hd. cbn. f_equal. by apply IH.
Qed.

Lemma digits_value_app (a b : list Z) :
  digits_value (a ++ b) = digits_value a * 16 ^ Z.of_nat (length b) + digits_value b.
Proof.
  unfold digits_value. rewrite foldl_app. generalize (foldl (λ acc d, acc * 16 + d) 0 a).
  induction b as [|d b IH] using rev_ind; intros acc.
  { cbn. lia. }
  rewrite !foldl_app. cbn [foldl]. rewrite IH, length_app, Nat2Z.inj_add.
  cbn [length]. rewrite Z.pow_add_r by lia. lia.
Qed.

Lemma digits_value_range (cs : list ascii) :
  Forall (λ c, is_Some (hex_digit c)) cs →
  0 ≤ digits_value (digit_values cs) < 16 ^ Z.of_nat (length cs).
Proof.
  induction cs as [|c cs IH] using rev_ind; intros Hcs.
  { cbn. lia. }
  apply Forall_app in Hcs as [Hcs Hc]. apply Forall_cons in Hc as [[d Hd] _].
  destruct (hex_digit_facts c d Hd) as (_ & Hr & _).
  unfold digit_values. rewrite fmap_app, digits_value_app. cbn [fmap list_fmap length].
  rewrite Hd. change (digits_value [default 0 (Some d)]) with (0 * 16 + d).
  specialize (IH Hcs). unfold digit_values in IH.
  rewrite length_app, Nat2Z.inj_add, Z.pow_add_r by lia.
  change (16 ^ Z.of_nat 1) with 16. cbn [length]. lia.
Qed.

(** What [parseInt] reads from up to eight digits, as a 32-bit half. *)
Lemma ToUint32_parseInt16_hex (p : string) :
  hex_string p → (String.length p ≤ 8)%nat →
  ToUint32 (parseInt16 p) = digits_value (digit_values (list_ascii_of_string p)).
Proof.
  intros Hp Hlen. destruct p as [|c p]; [reflexivity|].
  rewrite parseInt16_hex_string, leading_digits_hex by done.
  pose proof (digits_value_range _ Hp) as Hr.
  rewrite length_list_ascii in Hr.
  assert (H16 : 16 ^ Z.of_nat (String.length (String c p)) ≤ 16 ^ 8)
    by (apply Z.pow_le_mono_r; lia).
  change (16 ^ 8) with (2 ^ 32) in H16.
  rewrite number_of_integer_small by lia.
  rewrite ToUint32_of_Z. apply Z.mod_small. lia.
Qed.

Lemma strip_0x_hex_string (s : string) : hex_string s → strip_0x s = s.
Proof.
  intros Hs. destruct s as [|c [|c1 s]]; [done | |].
  - destruct c as [[] [] [] [] [] [] [] []]; reflexivity.
  - apply hex_string_cons in Hs as [_ Hs]. apply hex_string_cons in Hs as [[d1 Hd1] _].
    destruct (hex_digit_facts c1 d1 Hd1) as (_ & _ & _ & _ & _ & Hx & _).
    by apply strip_0x_no_x.
Qed.

Lemma hex_string_substring a m (s : string) : hex_string s → hex_string (substring a m s).
Proof.
  unfold hex_string. rewrite substring_list. intros Hs. by apply Forall_take, Forall_drop.
Qed.

Lemma setValue_args_hex_string (s t : string) :
  hex_string s → (String.length s ≤ 16)%nat → strip_0x t = s →
  ∃ hi lo,
    setValue_args (Args1 (VString t)) = Normal (false, hi, lo)
    ∧ ToUint32 hi * 2 ^ 32 + ToUint32 lo
      = digits_value (digit_values (list_ascii_of_string s)).
Proof.
  intros Hs Hlen Ht. unfold setValue_args. rewrite Ht.
  eexists _, _. split; [reflexivity|].
  set (n := String.length s) in *.
  assert (Hn : len s = Z.of_nat n) by reflexivity.
  (* the low half: the last eight characters, or all of them *)
  assert (Hlo : substr s (-8) None = substring (n - 8) (n - (n - 8)) s).
  { unfold substr. rewrite Hn. cbn [Z.ltb Z.compare].
    f_equal; lia. }
  rewrite Hlo.
  rewrite (ToUint32_parseInt16_hex (substring _ _ s));
    [| by apply hex_string_substring
     | rewrite <- length_list_ascii, substring_list, length_take, length_drop,
         length_list_ascii; lia].
  rewrite substring_list.
  rewrite take_ge by (rewrite length_drop, length_list_ascii; lia).
  destruct (Z.ltb_spec 8 (len s)) as [Hlong | Hshort].
  - assert (Hhi : substr s 0 (Some (len s - 8)) = substring 0 (n - 8) s).
    { unfold substr. rewrite Hn. cbn [Z.ltb Z.compare]. f_equal; lia. }
    rewrite Hhi.
    rewrite (ToUint32_parseInt16_hex (substring _ _ s));
      [| by apply hex_string_substring
       | rewrite <- length_list_ascii, substring_list, length_take, length_drop,
           length_list_ascii; lia].
    rewrite substring_list, drop_0.
    rewrite <- (take_drop (n - 8) (list_ascii_of_string s)) at 3.
    unfold digit_values. rewrite fmap_app, digits_value_app.
    rewrite length_fmap, length_drop, length_list_ascii.
    replace (Z.of_nat (String.length s - (n - 8))) with 8 by lia.
    reflexivity.
  - replace (n - 8)%nat with 0%nat by lia. rewrite drop_0. reflexivity.
Qed.

(** X13: a string of at most 16 radix-16 digits, the empty string
    included, with or without a leading [0x], is stored as the number it
    writes in radix 16, zero-filled on the left. *)
Theorem hex_string_stores_its_value (mem : nat → Z) (h : heap) (s : string) :
  hex_string s → (String.length s ≤ 16)%nat →
  (∃ h' this,
     Int64_new mem h (NewValue (Args1 (VString s))) = Normal (h', this)
     ∧ be_value (buf h' (buffer this)) = digits_value (leading_digits s))
  ∧ (∃ h' this,
       Int64_new mem h (NewValue (Args1 (VString (append "0x" s)))) = Normal (h', this)
       ∧ be_value (buf h' (buffer this)) = digits_value (leading_digits s)).
Proof.
  intros Hs Hlen.
  assert (Hgen : ∀ t, strip_0x t = s →
    ∃ h' this,
      Int64_new mem h (NewValue (Args1 (VString t))) = Normal (h', this)
      ∧ be_value (buf h' (buffer this)) = digits_value (leading_digits s)).
  { intros t Ht.
    destruct (setValue_args_hex_string s t Hs Hlen Ht) as (hi & lo & Hargs & Hval).
    eexists _, _. split; [by apply Int64_new_value|].
    unfold buf. cbn [buffer]. rewrite lookup_insert_eq. cbn [default from_option]. unfold id.
    by rewrite be_value_stored, leading_digits_hex. }
  split; apply Hgen; [by apply strip_0x_hex_string | reflexivity].
Qed.

Lemma hex_string_stores_its_value_witness :
  let s := "1F2e3"%string in
  hex_string s ∧ (String.length s ≤ 16)%nat
  ∧ (∃ h' this,
       Int64_new (λ _, 0) ∅ (NewValue (Args1 (VString s))) = Normal (h', this)
       ∧ be_value (buf h' (buffer this)) = 0x1f2e3)
  ∧ (∃ h' this,
       Int64_new (λ _, 0) ∅ (NewValue (Args1 (VString (append "0x" s)))) = Normal (h', this)
       ∧ be_value (buf h' (buffer this)) = 0x1f2e3).
Proof.
  intros s.
  assert (Hs : hex_string s) by (repeat constructor; by eexists).
  assert (Hlen : (String.length s ≤ 16)%nat) by (simpl; lia).
  split; [exact Hs|]. split; [exact Hlen|].
  exact (hex_string_stores_its_value (λ _, 0) ∅ s Hs Hlen).
Defined.

Example empty_string_is_zero :
  ∃ h' this,
    Int64_new (λ _, 7) ∅ (NewValue (Args1 (VString ""))) = Normal (h', this)
    ∧ buf h' (buffer this) = [0; 0; 0; 0; 0; 0; 0; 0].
Proof. eexists _, _. split; [vm_compute; reflexivity|]. vm_compute. reflexivity. Qed.

(** What [parseInt] reads from up to thirteen digits, as a 32-bit half:
    their value is below 2^52, so it is exact, and wraps modulo 2^32. *)
Lemma ToUint32_parseInt16_hex13 (p : string) :
  hex_string p → (String.length p ≤ 13)%nat →
  ToUint32 (parseInt16 p) = digits_value (digit_values (list_ascii_of_string p)) mod 2 ^ 32.
Proof.
  intros Hp Hlen. destruct p as [|c p]; [reflexivity|].
  rewrite parseInt16_hex_string, leading_digits_hex by done.
  pose proof (digits_value_range _ Hp) as Hr.
  rewrite length_list_ascii in Hr.
  assert (H16 : 16 ^ Z.of_nat (String.length (String c p)) ≤ 16 ^ 13)
    by (apply Z.pow_le_mono_r; lia).
  change (16 ^ 13) with (2 ^ 52) in H16.
  rewrite number_of_integer_small by lia.
  apply ToUint32_of_Z.
Qed.

(** X14: of a string of 17 to 21 radix-16 digits the sixteen on the right
    are kept: the string is accepted and stored as the number it writes
    modulo 2^64. *)
Theorem long_hex_string_wraps (mem : nat → Z) (h : heap) (s : string) :
  hex_string s → (16 < String.length s ≤ 21)%nat →
  ∃ h' this,
    Int64_new mem h (NewValue (Args1 (VString s))) = Normal (h', this)
    ∧ be_value (buf h' (buffer this)) = digits_value (leading_digits s) mod 2 ^ 64.
Proof.
  intros Hs Hlen.
  set (n := String.length s) in *.
  assert (Hn : len s = Z.of_nat n) by reflexivity.
  assert (Hargs : setValue_args (Args1 (VString s))
    = Normal (false, parseInt16 (substring 0 (n - 8) s),
              parseInt16 (substring (n - 8) (n - (n - 8)) s))).
  { assert (Hlo : substr s (-8) None = substring (n - 8) (n - (n - 8)) s).
    { unfold substr. rewrite Hn. cbn [Z.ltb Z.compare]. f_equal; lia. }
    assert (Hhi : substr s 0 (Some (len s - 8)) = substring 0 (n - 8) s).
    { unfold substr. rewrite Hn. cbn [Z.ltb Z.compare]. f_equal; lia. }
    unfold setValue_args. rewrite strip_0x_hex_string by done.
    destruct (Z.ltb_spec 8 (len s)); [|lia]. by rewrite Hlo, Hhi. }
  eexists _, _. split; [by apply Int64_new_value|].
  unfold buf. cbn [buffer]. rewrite lookup_insert_eq. cbn [default from_option]. unfold id.
  rewrite be_value_stored. cbn zeta.
  rewrite (ToUint32_parseInt16_hex13 (substring 0 _ s));
    [| by apply hex_string_substring
     | rewrite <- length_list_ascii, substring_list, length_take, length_drop,
         length_list_ascii; lia].
  rewrite (ToUint32_parseInt16_hex (substring (n - 8) _ s));
    [| by apply hex_string_substring
     | rewrite <- length_list_ascii, substring_list, length_take, length_drop,
         length_list_ascii; lia].
  rewrite !substring_list, drop_0.
  rewrite (take_ge (drop _ _)) by (rewrite length_drop, length_list_ascii; lia).
  rewrite leading_digits_hex by done.
  rewrite <- (take_drop (n - 8) (list_ascii_of_string s)) at 3.
  unfold digit_values. rewrite fmap_app, digits_value_app.
  rewrite length_fmap, length_drop, length_list_ascii.
  replace (Z.of_nat (String.length s - (n - 8))) with 8 by lia.
  fold (digit_values (take (n - 8) (list_ascii_of_string s))).
  fold (digit_values (drop (n - 8) (list_ascii_of_string s))).
  pose proof (digits_value_range (drop (n - 8) (list_ascii_of_string s))) as Hlo.
  rewrite length_drop, length_list_ascii in Hlo.
  replace (Z.of_nat (String.length s - (n - 8))) with 8 in Hlo by lia.
  specialize (Hlo (Forall_drop _ _ _ Hs)).
  pose proof (digits_value_range (take (n - 8) (list_ascii_of_string s))
                (Forall_take _ _ _ Hs)) as [Hhi _].
  generalize dependent (digits_value (digit_values (take (n - 8) (list_ascii_of_string s)))).
  generalize dependent (digits_value (digit_values (drop (n - 8) (list_ascii_of_string s)))).
  intros lo Hlo hi Hhi.
  change (16 ^ 8) with (2 ^ 32) in *. change (2 ^ 64) with (2 ^ 32 * 2 ^ 32).
  rewrite Z.rem_mul_r by lia.
  assert (Hm : (hi * 2 ^ 32 + lo) mod 2 ^ 32 = lo)
    by (symmetry; apply (Z.mod_unique _ _ hi); lia).
  assert (Hd : (hi * 2 ^ 32 + lo) / 2 ^ 32 = hi)
    by (symmetry; apply (Z.div_unique _ _ _ lo); lia).
  rewrite Hm, Hd. lia.
Qed.

Lemma long_hex_string_wraps_witness :
  let s := "123456789abcdef01234"%string in
  hex_string s ∧ (16 < String.length s ≤ 21)%nat
  ∧ ∃ h' this,
      Int64_new (λ _, 0) ∅ (NewValue (Args1 (VString s))) = Normal (h', this)
      ∧ be_value (buf h' (buffer this)) = 0x56789abcdef01234.
Proof.
  intros s.
  assert (Hs : hex_string s) by (repeat constructor; by eexists).
  assert (Hlen : (16 < String.length s ≤ 21)%nat) by (simpl; lia).
  split; [exact Hs|]. split; [exact Hlen|].
  exact (long_hex_string_wraps (λ _, 0) ∅ s Hs Hlen).
Defined.

(** ** Reading back what was constructed *)

Lemma valueOf_owned (h : heap) (l : loc) (mid : list Z) :
  length mid = 8%nat → octets mid →
  valueOf (<[l := mid]> h) {| buffer := l; offset := 0 |} = saturate (signed64 (be_value mid)).
Proof.
  intros Hlen Hoct.
  rewrite (valueOf_at_offset_0 _ _ mid []); [done | | done | done | done].
  cbn [buffer]. by rewrite app_nil_r, lookup_insert_eq.
Qed.

Lemma Int64_new_hex_string (mem : nat → Z) (h : heap) (s t : string) :
  hex_string s → (String.length s ≤ 16)%nat → strip_0x t = s →
  ∃ hi lo,
    Int64_new mem h (NewValue (Args1 (VString t)))
    = Normal (<[fresh (dom h) := stored_octets false hi lo]> h,
              {| buffer := fresh (dom h); offset := 0 |})
    ∧ be_value (stored_octets false hi lo) = digits_value (leading_digits s).
Proof.
  intros Hs Hlen Ht.
  destruct (setValue_args_hex_string s t Hs Hlen Ht) as (hi & lo & Hargs & Hval).
  exists hi, lo. split; [by apply Int64_new_value|].
  by rewrite be_value_stored, leading_digits_hex.
Qed.

Section ReadingBack.

Context (mem : nat → Z) (h : heap).

(** X15: the raw halves are the bit pattern: an Int64 constructed from the
    integers [(hi, lo)] reads back as the two's-complement value of the 64
    bits made of the low 32 bits of [hi] and the low 32 bits of [lo],
    saturated to an infinity from 2^53 on. *)
Theorem raw_halves_then_valueOf (hi lo : Z) :
  ∃ h' this,
    Int64_new mem h (NewValue (Args2 (of_Z hi) (of_Z lo))) = Normal (h', this)
    ∧ valueOf h' this
      = saturate (signed64 ((hi mod 2 ^ 32) * 2 ^ 32 + lo mod 2 ^ 32)).
Proof.
  eexists _, _. split; [by apply Int64_new_value|].
  rewrite valueOf_owned by auto with octets.
  by rewrite be_value_stored, !ToUint32_of_Z.
Qed.

(** X16: an Int64 constructed from a string of at most 16 radix-16 digits
    reads back as the two's-complement value of the number the string
    writes, saturated to an infinity from 2^53 on: sixteen [f] read as -1. *)
Theorem hex_string_then_valueOf (s : string) :
  hex_string s → (String.length s ≤ 16)%nat →
  ∃ h' this,
    Int64_new mem h (NewValue (Args1 (VString s))) = Normal (h', this)
    ∧ valueOf h' this = saturate (signed64 (digits_value (leading_digits s))).
Proof.
  intros Hs Hlen.
  destruct (Int64_new_hex_string mem h s s Hs Hlen (strip_0x_hex_string s Hs))
    as (hi & lo & Hnew & Hval).
  eexists _, _. split; [exact Hnew|].
  rewrite valueOf_owned by auto with octets. by rewrite Hval.
Qed.

End ReadingBack.

Lemma hex_string_then_valueOf_witness :
  let s := "ffffffffffffffff"%string in
  hex_string s ∧ (String.length s ≤ 16)%nat
  ∧ ∃ h' this,
      Int64_new (λ _, 0) ∅ (NewValue (Args1 (VString s))) = Normal (h', this)
      ∧ valueOf h' this = of_Z (-1).
Proof.
  intros s.
  assert (Hs : hex_string s) by (repeat constructor; by eexists).
  assert (Hlen : (String.length s ≤ 16)%nat) by (simpl; lia).
  split; [exact Hs|]. split; [exact Hlen|].
  exact (hex_string_then_valueOf (λ _, 0) ∅ s Hs Hlen).
Defined.

Example raw_halves_minus_one :
  ∃ h' this,
    Int64_new (λ _, 0) ∅ (NewValue (Args2 (of_Z 0xffffffff) (of_Z (-1)))) = Normal (h', this)
    ∧ valueOf h' this = of_Z (-1).
Proof. eexists _, _. split; [vm_compute; reflexivity|]. vm_compute. reflexivity. Qed.

(** ** [toString] *)

Lemma of_Z_inj a b : of_Z a = of_Z b → a = b.
Proof. by intros [= ->]. Qed.

Lemma digit_values_cons c cs d :
  hex_digit c = Some d → digit_values (c :: cs) = d :: digit_values cs.
Proof. intros Hd. unfold digit_values. cbn [fmap list_fmap]. by rewrite Hd. Qed.

Lemma digits_value_cons d ds :
  digits_value (d :: ds) = d * 16 ^ Z.of_nat (length ds) + digits_value ds.
Proof. change (d :: ds) with ([d] ++ ds). rewrite digits_value_app. cbn. lia. Qed.

(** The radix-16 digits [toString] writes in front of [acc]: radix-16
    digits again, as many as the number has, that write the number. *)
Lemma radix_digits_16 (fuel : nat) :
  ∀ (k : nat) (i : Z) (acc : string),
    0 ≤ i < 16 ^ Z.of_nat k → (1 ≤ k ≤ fuel + 1)%nat → hex_string acc →
    let s := radix_digits 16 fuel i acc in
    hex_string s
    ∧ (String.length s ≤ k + String.length acc)%nat
    ∧ (0 < String.length s)%nat
    ∧ digits_value (digit_values (list_ascii_of_string s))
      = i * 16 ^ Z.of_nat (String.length acc)
        + digits_value (digit_values (list_ascii_of_string acc)).
Proof.
  induction fuel as [|fuel IH]; intros k i acc Hi Hk Hacc.
  - assert (k = 1%nat) as -> by lia. change (16 ^ Z.of_nat 1) with 16 in Hi.
    cbn [radix_digits]. cbn zeta. rewrite Z.mod_small by lia.
    destruct (hex_char_facts i Hi) as (Hd & _).
    split; [apply hex_string_cons; split; [by eexists | done]|].
    split; [cbn; lia|]. split; [cbn; lia|].
    cbn [list_ascii_of_string]. rewrite (digit_values_cons _ _ i Hd), digits_value_cons.
    unfold digit_values. by rewrite length_fmap, length_list_ascii.
  - cbn [radix_digits]. cbn zeta.
    assert (Hm : 0 ≤ i mod 16 < 16) by (apply Z.mod_pos_bound; lia).
    destruct (hex_char_facts (i mod 16) Hm) as (Hd & _).
    assert (Hacc' : hex_string (String (hex_char (i mod 16)) acc))
      by (apply hex_string_cons; split; [by eexists | done]).
    assert (Hval' : digits_value (digit_values (list_ascii_of_string
                      (String (hex_char (i mod 16)) acc)))
                    = i mod 16 * 16 ^ Z.of_nat (String.length acc)
                      + digits_value (digit_values (list_ascii_of_string acc))).
    { cbn [list_ascii_of_string]. rewrite (digit_values_cons _ _ _ Hd), digits_value_cons.
      unfold digit_values. by rewrite length_fmap, length_list_ascii. }
    destruct (Z.eqb_spec (i / 16) 0) as [Hz | Hnz].
    + split; [done|]. split; [cbn; lia|]. split; [cbn; lia|].
      rewrite Hval'. rewrite (Z.div_mod i 16) at 2 by lia. rewrite Hz. lia.
    + assert (Hq : 0 < i / 16) by (pose proof (Z.div_pos i 16); lia).
      assert (Hk2 : (2 ≤ k)%nat).
      { destruct k as [|[|k]]; [lia | | lia].
        change (16 ^ Z.of_nat 1) with 16 in Hi.
        rewrite Z.div_small in Hq by lia. lia. }
      destruct (IH (k - 1)%nat (i / 16) (String (hex_char (i mod 16)) acc))
        as (Hs & Hlen & Hpos & Hval); [| lia | done |].
      { split; [lia|]. apply Z.div_lt_upper_bound; [lia|].
        replace (Z.of_nat k) with (Z.of_nat (k - 1) + 1) in Hi by lia.
        rewrite Z.pow_add_r in Hi by lia. lia. }
      split; [done|]. split; [cbn in Hlen; lia|]. split; [done|].
      rewrite Hval, Hval'. cbn [String.length].
      rewrite Nat2Z.inj_succ, Z.pow_succ_r by lia.
      rewrite (Z.div_mod i 16) at 3 by lia. lia.
Qed.

Lemma toString_16_nonneg (h : heap) (this : Int64) (z : Z) :
  valueOf h this = of_Z z → 0 ≤ z →
  ∃ s,
    toString h this (Some 16) = Normal s
    ∧ hex_string s ∧ (0 < String.length s ≤ 14)%nat
    ∧ digits_value (leading_digits s) = z.
Proof.
  intros Hv Hz.
  assert (Hsafe : z < 2 ^ 53).
  { destruct (valueOf_cases h this) as [[s Hs] | (z' & Hz' & Hv')];
      [rewrite Hv in Hs; discriminate|].
    rewrite Hv in Hv'. apply of_Z_inj in Hv'. unfold MAX_INT in Hz'. lia. }
  unfold toString. change (16 =? 0) with false. cbv iota.
  change ((2 <=? 16) && (16 <=? 36)) with true. cbv iota.
  rewrite Hv. unfold Number_toString, of_Z. rewrite Qtrunc_inject_Z.
  destruct (Z.ltb_spec z 0); [lia|]. rewrite Z.abs_eq by lia.
  eexists. split; [reflexivity|].
  set (k := Nat.min (Z.to_nat (Z.log2 z) + 1) 14).
  destruct (radix_digits_16 (Z.to_nat (Z.log2 z)) k z EmptyString)
    as (Hs & Hlen & Hpos & Hval); [| lia | constructor |].
  - split; [done|]. subst k.
    destruct (Nat.min_spec (Z.to_nat (Z.log2 z) + 1) 14) as [[_ ->] | [_ ->]].
    + destruct (Z.eq_dec z 0) as [-> | Hnz]; [cbn; lia|].
      pose proof (Z.log2_spec z ltac:(lia)) as [_ Hlt].
      pose proof (Z.log2_nonneg z).
      rewrite Nat2Z.inj_add, Z2Nat.id by lia. change (Z.of_nat 1) with 1.
      replace (Z.succ (Z.log2 z)) with (Z.log2 z + 1) in Hlt by lia.
      assert (2 ^ (Z.log2 z + 1) ≤ 16 ^ (Z.log2 z + 1))
        by (apply Z.pow_le_mono_l; lia).
      lia.
    + change (16 ^ Z.of_nat 14) with (2 ^ 56). 
      assert (2 ^ 53 < 2 ^ 56) by (apply Z.pow_lt_mono_r; lia). lia.
  - cbn zeta in *. split; [done|]. split; [cbn in Hlen; lia|].
    rewrite leading_digits_hex by done. rewrite Hval. cbn. lia.
Qed.

(** X17: [toString(16)] reads back: for an Int64 whose [valueOf] is a
    non-negative integer [z], [toString(16)] returns a string from which the
    constructor builds an Int64 that stores [z] and whose [valueOf] is [z]
    again. *)
Theorem toString_16_reconstructs (mem : nat → Z) (h : heap) (this : Int64) (z : Z) :
  valueOf h this = of_Z z → 0 ≤ z →
  ∃ s h' that,
    toString h this (Some 16) = Normal s
    ∧ Int64_new mem h (NewValue (Args1 (VString s))) = Normal (h', that)
    ∧ be_value (buf h' (buffer that)) = z
    ∧ valueOf h' that = of_Z z.
Proof.
  intros Hv Hz.
  destruct (toString_16_nonneg h this z Hv Hz) as (s & Hs & Hhex & Hlen & Hval).
  destruct (Int64_new_hex_string mem h s s Hhex ltac:(lia) (strip_0x_hex_string s Hhex))
    as (hi & lo & Hnew & Hbe).
  exists s. eexists _, _. split; [done|]. split; [exact Hnew|].
  unfold buf. cbn [buffer]. rewrite lookup_insert_eq. cbn [default from_option]. unfold id.
  split; [by rewrite Hbe|].
  rewrite valueOf_owned by auto with octets. rewrite Hbe, Hval.
  destruct (valueOf_cases h this) as [[neg Hinf] | (z' & Hz' & Hv')];
    [rewrite Hv in Hinf; discriminate|].
  rewrite Hv in Hv'. apply of_Z_inj in Hv'. subst z'.
  unfold saturate, signed64, MAX_INT, MIN_INT in *.
  destruct (Z.leb_spec (2 ^ 63) z); [lia|].
  destruct (Z.leb_spec (2 ^ 53) (Z.abs z)); [lia | done].
Qed.

Lemma toString_16_reconstructs_witness :
  let h : heap := {[ 1%positive := [0; 0; 0; 0; 0; 1; 0xe2; 0x40] ]} in
  let this := {| buffer := 1%positive; offset := 0 |} in
  valueOf h this = of_Z 123456 ∧ 0 ≤ 123456
  ∧ ∃ s h' that,
      toString h this (Some 16) = Normal s
      ∧ Int64_new (λ _, 0) h (NewValue (Args1 (VString s))) = Normal (h', that)
      ∧ be_value (buf h' (buffer that)) = 123456
      ∧ valueOf h' that = of_Z 123456.
Proof.
  intros h this.
  assert (Hv : valueOf h this = of_Z 123456) by (vm_compute; reflexivity).
  assert (Hz : 0 ≤ 123456) by lia.
  split; [exact Hv|]. split; [exact Hz|].
  exact (toString_16_reconstructs (λ _, 0) h this 123456 Hv Hz).
Defined.

(** The sign [toString] writes is not a radix-16 digit of the constructor:
    a negative value does not come back. *)
Example toString_16_of_negative_does_not_reconstruct :
  let h : heap := {[ 1%positive := [255; 255; 255; 255; 255; 255; 255; 1] ]} in
  let this := {| buffer := 1%positive; offset := 0 |} in
  toString h this (Some 16) = Normal "-ff"%string
  ∧ ∃ h' that,
      Int64_new (λ _, 0) h (NewValue (Args1 (VString "-ff"))) = Normal (h', that)
      ∧ buf h' (buffer that) = [0; 0; 0; 0; 255; 255; 255; 1].
Proof.
  split; [vm_compute; reflexivity|].
  eexists _, _. split; [vm_compute; reflexivity|]. vm_compute. reflexivity.
Qed.


(** X19: [toString] saturates with [valueOf]: for an Int64 whose eight
    octets start at index 0 of its Buffer and hold a value of magnitude 2^53
    or more, it returns ["Infinity"] or ["-Infinity"], in every radix. *)
Theorem toString_saturates (h : heap) (this : Int64) (b : list Z) (radix : Z) :
  h !! buffer this = Some b → offset this = 0 →
  (8 ≤ length b)%nat → octets b → 2 ≤ radix ≤ 36 →
  2 ^ 53 ≤ Z.abs (int64_value (take 8 b)) →
  toString h this (Some radix)
  = Normal (if int64_value (take 8 b) <? 0 then "-Infinity"%string else "Infinity"%string).
Proof.
  intros Hh Ho Hlen Hoct Hr Hmag. unfold toString.
  destruct (Z.eqb_spec radix 0); [lia|].
  destruct (Z.leb_spec 2 radix), (Z.leb_spec radix 36); try lia. cbn [andb].
  rewrite (valueOf_saturates_at_offset_0 h this (take 8 b) (drop 8 b));
    [| by rewrite take_drop | done | rewrite length_take; lia | by apply Forall_take | done].
  by destruct (_ <? 0).
Qed.

Lemma toString_saturates_witness :
  let b := [255; 0; 0; 0; 0; 0; 0; 0] in
  let h : heap := {[ 1%positive := b ]} in
  let this := {| buffer := 1%positive; offset := 0 |} in
  h !! buffer this = Some b ∧ offset this = 0
  ∧ (8 ≤ length b)%nat ∧ octets b ∧ 2 ≤ 7 ≤ 36
  ∧ 2 ^ 53 ≤ Z.abs (int64_value (take 8 b))
  ∧ toString h this (Some 7) = Normal "-Infinity"%string.
Proof.
  intros b h this.
  assert (Hh : h !! buffer this = Some b) by reflexivity.
  assert (Ho : offset this = 0) by reflexivity.
  assert (Hlen : (8 ≤ length b)%nat) by (simpl; lia).
  assert (Hb : octets b) by (repeat constructor; unfold octet; lia).
  assert (Hr : 2 ≤ 7 ≤ 36) by lia.
  assert (Hmag : 2 ^ 53 ≤ Z.abs (int64_value (take 8 b))) by (vm_compute; discriminate).
  repeat (split; [assumption|]).
  exact (toString_saturates h this b 7 Hh Ho Hlen Hb Hr Hmag).
Defined.

(** ** [inspect] *)

Lemma list_ascii_append (a b : string) :
  list_ascii_of_string (append a b) = list_ascii_of_string a ++ list_ascii_of_string b.
Proof.
  induction a as [|c a IH]; [done|].
  change (append (String c a) b) with (String c (append a b)).
  cbn [list_ascii_of_string]. by rewrite IH.
Qed.

Lemma list_ascii_inj (a b : string) :
  list_ascii_of_string a = list_ascii_of_string b → a = b.
Proof.
  intros H. apply (f_equal string_of_list_ascii) in H.
  by rewrite !string_of_list_ascii_of_string in H.
Qed.

Lemma append_suffix_inj (a1 a2 b1 b2 : string) :
  String.length b1 = String.length b2 → append a1 b1 = append a2 b2 → b1 = b2.
Proof.
  intros Hlen H. apply (f_equal list_ascii_of_string) in H.
  rewrite !list_ascii_append in H.
  apply app_inj_2 in H as [_ H]; [by apply list_ascii_inj|].
  by rewrite !length_list_ascii.
Qed.

Lemma append_prefix_inj (a1 a2 b : string) : append a1 b = append a2 b → a1 = a2.
Proof.
  intros H. apply (f_equal list_ascii_of_string) in H.
  rewrite !list_ascii_append in H. apply app_inj_2 in H as [H _]; [by apply list_ascii_inj|done].
Qed.

Lemma string_append_assoc (a b c : string) :
  append a (append b c) = append (append a b) c.
Proof.
  induction a as [|x a IH]; [done|].
  change (append (String x a) (append b c)) with (String x (append a (append b c))).
  by rewrite IH.
Qed.

Lemma length_spaced_octets (mid : list Z) :
  length mid = 8%nat →
  String.length (String.concat " " (hex_octet <$> mid)) = 23%nat.
Proof. intros Hlen. eight_octets mid Hlen. reflexivity. Qed.

(** X20: [inspect] identifies the octets, also where the value prints as an
    infinity: two Int64 values, each over eight octets within its Buffer,
    with the same [inspect] string hold the same eight octets. *)
Theorem inspect_injective (h1 h2 : heap) (this1 this2 : Int64) (b1 b2 : list Z) :
  h1 !! buffer this1 = Some b1 → octets b1 →
  0 ≤ offset this1 → offset this1 + 8 ≤ Z.of_nat (length b1) →
  h2 !! buffer this2 = Some b2 → octets b2 →
  0 ≤ offset this2 → offset this2 + 8 ≤ Z.of_nat (length b2) →
  inspect h1 this1 = inspect h2 this2 →
  region b1 (offset this1) = region b2 (offset this2).
Proof.
  intros Hh1 Hb1 Ho1 Hlen1 Hh2 Hb2 Ho2 Hlen2. unfold inspect.
  rewrite (toOctetString_in_bounds h1 this1 b1) by done.
  rewrite (toOctetString_in_bounds h2 this2 b2) by done.
  cbn [default from_option]. unfold id.
  rewrite !(string_append_assoc "[Int64 value:").
  rewrite !(string_append_assoc (append "[Int64 value:" _) " octets:").
  intros H. apply append_suffix_inj in H.
  2: { rewrite <- !length_list_ascii, !list_ascii_append, !length_app,
         !length_list_ascii, !length_spaced_octets by (by apply length_region). done. }
  apply append_prefix_inj in H.
  apply concat_hex_octet_inj in H; [done | | by apply octets_region | by apply octets_region].
  by rewrite !length_region.
Qed.

Lemma inspect_injective_witness :
  let b1 := [0; 0x7f; 1; 2; 3; 4; 5; 6; 7] in
  let b2 := [0x7f; 1; 2; 3; 4; 5; 6; 7] in
  let h1 : heap := {[ 1%positive := b1 ]} in
  let h2 : heap := {[ 2%positive := b2 ]} in
  let this1 := {| buffer := 1%positive; offset := 1 |} in
  let this2 := {| buffer := 2%positive; offset := 0 |} in
  h1 !! buffer this1 = Some b1 ∧ octets b1
  ∧ 0 ≤ offset this1 ∧ offset this1 + 8 ≤ Z.of_nat (length b1)
  ∧ h2 !! buffer this2 = Some b2 ∧ octets b2
  ∧ 0 ≤ offset this2 ∧ offset this2 + 8 ≤ Z.of_nat (length b2)
  ∧ inspect h1 this1 = inspect h2 this2
  ∧ region b1 (offset this1) = region b2 (offset this2).
Proof.
  intros b1 b2 h1 h2 this1 this2.
  assert (Hh1 : h1 !! buffer this1 = Some b1) by reflexivity.
  assert (Hb1 : octets b1) by (repeat constructor; unfold octet; lia).
  assert (Ho1 : 0 ≤ offset this1) by (simpl; lia).
  assert (Hlen1 : offset this1 + 8 ≤ Z.of_nat (length b1)) by (simpl; lia).
  assert (Hh2 : h2 !! buffer this2 = Some b2) by reflexivity.
  assert (Hb2 : octets b2) by (repeat constructor; unfold octet; lia).
  assert (Ho2 : 0 ≤ offset this2) by (simpl; lia).
  assert (Hlen2 : offset this2 + 8 ≤ Z.of_nat (length b2)) by (simpl; lia).
  assert (Heq : inspect h1 this1 = inspect h2 this2) by (vm_compute; reflexivity).
  repeat (split; [assumption|]).
  exact (inspect_injective h1 h2 this1 this2 b1 b2
           Hh1 Hb1 Ho1 Hlen1 Hh2 Hb2 Ho2 Hlen2 Heq).
Defined.

Example inspect_minus_42 :
  inspect {[ 1%positive := [255; 255; 255; 255; 255; 255; 255; 214] ]}
    {| buffer := 1%positive; offset := 0 |}
  = "[Int64 value:-42 octets:ff ff ff ff ff ff ff d6]"%string.
Proof. vm_compute. reflexivity. Qed.

(** ** A view outside its Buffer *)

Lemma get_outside (b : list Z) i :
  i < 0 ∨ Z.of_nat (length b) ≤ i → get b i = None.
Proof.
  intros Hi. unfold get. destruct (Z.leb_spec 0 i); [|done].
  apply lookup_ge_None. lia.
Qed.

Lemma elem_outside (b : list Z) i :
  i < 0 ∨ Z.of_nat (length b) ≤ i → elem b i = 0.
Proof. intros Hi. unfold elem. by rewrite get_outside. Qed.

Lemma set_outside (b : list Z) i v :
  i < 0 ∨ Z.of_nat (length b) ≤ i → set b i v = b.
Proof.
  intros Hi. unfold set. destruct (Z.leb_spec 0 i); [|done].
  apply list_insert_ge. lia.
Qed.

Lemma _2scomp_fold_outside (idx : list Z) (b : list Z) c :
  Forall (λ i, i < 0 ∨ Z.of_nat (length b) ≤ i) idx →
  (foldl _2scomp_step (b, c) idx).1 = b.
Proof.
  intros Hidx. revert c. induction Hidx as [|i idx Hi _ IH]; intros c; [done|].
  cbn [foldl]. unfold _2scomp_step at 2. rewrite set_outside by done. apply IH.
Qed.

Lemma copy_fold_outside o hi (idx : list Z) (b : list Z) lo :
  Forall (λ i, o + i < 0 ∨ Z.of_nat (length b) ≤ o + i) idx →
  (foldl (copy_step o hi) (b, lo) idx).1 = b.
Proof.
  intros Hidx. revert lo. induction Hidx as [|i idx Hi _ IH]; intros lo; [done|].
  cbn [foldl]. unfold copy_step at 2. rewrite set_outside by done. apply IH.
Qed.

Lemma alter_fixed (f : list Z → list Z) (h : heap) (l : loc) (b : list Z) :
  h !! l = Some b → f b = b → alter f l h = h.
Proof.
  intros Hh Hf. apply map_eq. intros l'. destruct (decide (l' = l)) as [-> | Hne].
  - by rewrite lookup_alter_eq, Hh; cbn; rewrite Hf.
  - by rewrite lookup_alter_ne.
Qed.

Lemma valueOf_outside (h : heap) (this : Int64) (b : list Z) :
  h !! buffer this = Some b →
  Z.of_nat (length b) ≤ offset this ∨ offset this + 8 ≤ 0 →
  valueOf h this = of_Z 0.
Proof.
  intros Hh Hout. unfold valueOf, buf. rewrite Hh. cbn [default from_option]. unfold id.
  generalize (Z.land (elem b 0) 128). intros negate.
  change (seqZ 0 8) with [0; 1; 2; 3; 4; 5; 6; 7]. cbn [foldl].
  unfold valueOf_step. rewrite !elem_outside by lia.
  destruct (negate =? 0); vm_compute; reflexivity.
Qed.

(** X21: a view whose eight octets lie wholly outside its Buffer (the
    constructor does not check) reads as 0 and as a string of eight empty
    octets, and [_2scomp] and a successful [setValue] through it write
    nothing. *)
Theorem view_outside_buffer (h : heap) (this : Int64) (b : list Z) :
  h !! buffer this = Some b →
  Z.of_nat (length b) ≤ offset this ∨ offset this + 8 ≤ 0 →
  valueOf h this = of_Z 0
  ∧ (∀ sep, toOctetString h this sep
            = String.concat (default EmptyString sep) (replicate 8 EmptyString))
  ∧ _2scomp h this = h
  ∧ (∀ args h', setValue h this args = Normal h' → h' = h).
Proof.
  intros Hh Hout.
  assert (Hidx : Forall (λ i, i < 0 ∨ Z.of_nat (length b) ≤ i)
                   (reverse (seqZ (offset this) 8))).
  { apply Forall_reverse, Forall_seqZ. lia. }
  assert (H2 : _2scomp h this = h).
  { unfold _2scomp. apply (alter_fixed _ h _ b Hh).
    by apply _2scomp_fold_outside. }
  split; [by apply (valueOf_outside h this b)|]. split; [|split; [exact H2|]].
  - intros sep. unfold toOctetString, buf. rewrite Hh. cbn [default from_option]. unfold id.
    change (seqZ 0 8) with [0; 1; 2; 3; 4; 5; 6; 7]. cbn [fmap list_fmap].
    rewrite !get_outside by lia. reflexivity.
  - intros args h'. unfold setValue.
    destruct (setValue_args args) as [[[negate hi] lo]|e]; [|discriminate].
    intros [= <-].
    assert (Hc : alter (λ b, copy_bytes b (offset this) hi lo) (buffer this) h = h).
    { apply (alter_fixed _ h _ b Hh). apply copy_fold_outside.
      apply Forall_reverse, Forall_seqZ. lia. }
    rewrite Hc. by destruct negate.
Qed.

Lemma view_outside_buffer_witness :
  let b := [0x80; 2; 3] in
  let h : heap := {[ 1%positive := b ]} in
  let this := {| buffer := 1%positive; offset := 3 |} in
  h !! buffer this = Some b
  ∧ (Z.of_nat (length b) ≤ offset this ∨ offset this + 8 ≤ 0)
  ∧ valueOf h this = of_Z 0
  ∧ (∀ sep, toOctetString h this sep
            = String.concat (default EmptyString sep) (replicate 8 EmptyString))
  ∧ _2scomp h this = h
  ∧ (∀ args h', setValue h this args = Normal h' → h' = h).
Proof.
  intros b h this.
  assert (Hh : h !! buffer this = Some b) by reflexivity.
  assert (Hout : Z.of_nat (length b) ≤ offset this ∨ offset this + 8 ≤ 0)
    by (left; simpl; lia).
  split; [exact Hh|]. split; [exact Hout|].
  exact (view_outside_buffer h this b Hh Hout).
Defined.

(** ** Fractions on the numeric path *)

Lemma half_octets_ext x y : ToUint32 x = ToUint32 y → half_octets x = half_octets y.
Proof. intros H. unfold half_octets. by rewrite H. Qed.

Lemma stored_octets_zero negate hi lo :
  ToUint32 hi = 0 → ToUint32 lo = 0 → stored_octets negate hi lo = [0; 0; 0; 0; 0; 0; 0; 0].
Proof.
  intros Hhi Hlo. unfold stored_octets, half_octets. rewrite Hhi, Hlo.
  by destruct negate.
Qed.

Lemma stored_octets_ext negate hi lo hi' lo' :
  ToUint32 hi = ToUint32 hi' → ToUint32 lo = ToUint32 lo' →
  stored_octets negate hi lo = stored_octets negate hi' lo'.
Proof.
  intros Hhi Hlo. unfold stored_octets.
  by rewrite (half_octets_ext hi hi'), (half_octets_ext lo lo').
Qed.

(** The halves the numeric path takes of a finite number [a # d] whose high
    half does not exceed 2^32. *)
Lemma setValue_args_fraction (a : Z) (d : positive) :
  ¬ high_half_exceeds (Num (a # d)) →
  ∃ hi lo,
    setValue_args (Args1 (VNumber (Num (a # d)))) = Normal (a <? 0, hi, lo)
    ∧ ToUint32 hi = Z.abs a / Z.pos d / 2 ^ 32 mod 2 ^ 32
    ∧ ToUint32 lo = Z.abs a / Z.pos d mod 2 ^ 32
    ∧ Z.abs a / Z.pos d ≤ 2 ^ 64.
Proof.
  intros Hnot.
  assert (Hlt : js_lt (of_Z VAL32) (js_div (Math_abs (Num (a # d))) (of_Z VAL32)) = false).
  { destruct (js_lt _ _) eqn:E; [|done]. by apply js_lt_high_half in E. }
  unfold setValue_args. rewrite Hlt.
  eexists _, _. split.
  { f_equal. f_equal. f_equal. unfold js_lt, of_Z, inject_Z. cbn [Qnum Qden].
    by rewrite Z.mul_1_r. }
  assert (Hdiv : js_div (Math_abs (Num (a # d))) (of_Z VAL32)
                 = Num (Z.abs a # (d * 4294967296))).
  { unfold js_div, Math_abs, of_Z. change (Qnum (inject_Z VAL32) =? 0) with false. cbv iota.
    f_equal. unfold Qdiv, Qmult, Qinv, inject_Z, Qabs.
    pose (V := 4294967296%positive). change VAL32 with (Z.pos V).
    cbn [Qnum Qden]. by rewrite Z.mul_1_r. }
  assert (Ha : 0 ≤ Z.abs a) by lia.
  assert (Ht : Qtrunc (Z.abs a # (d * 4294967296)) = Z.abs a / Z.pos d / 2 ^ 32).
  { unfold Qtrunc. cbn [Qnum Qden]. rewrite Z.quot_div_nonneg by lia.
    rewrite Pos2Z.inj_mul. by rewrite Z.div_div by lia. }
  split; [|split].
  - rewrite ToUint32_lor_0, Hdiv. unfold ToUint32. by rewrite Ht.
  - unfold js_rem, Math_abs, of_Z. change (Qnum (inject_Z VAL32) =? 0) with false. cbv iota.
    replace (Qabs (a # d) / inject_Z VAL32)%Q with (Z.abs a # (d * 4294967296)).
    2: { unfold Qdiv, Qmult, Qinv, inject_Z, Qabs.
         pose (V := 4294967296%positive). change VAL32 with (Z.pos V).
         cbn [Qnum Qden]. by rewrite Z.mul_1_r. }
    rewrite Ht. unfold ToUint32, Qtrunc, Qminus, Qplus, Qopp, Qmult, inject_Z, Qabs.
    cbn [Qnum Qden]. rewrite !Pos.mul_1_r, !Z.mul_1_r.
    change VAL32 with (2 ^ 32).
    set (t := Z.abs a / Z.pos d / 2 ^ 32).
    assert (Htd : 2 ^ 32 * t * Z.pos d ≤ Z.abs a).
    { subst t. rewrite Z.div_div by lia.
      pose proof (Z.mul_div_le (Z.abs a) (Z.pos d * 2 ^ 32)). lia. }
    rewrite Z.quot_div_nonneg by lia.
    replace (Z.abs a + - (2 ^ 32 * t) * Z.pos d) with (Z.abs a + (- (2 ^ 32 * t)) * Z.pos d) by lia.
    rewrite Z.div_add by lia.
    replace (Z.abs a / Z.pos d + - (2 ^ 32 * t)) with (Z.abs a / Z.pos d + (- t) * 2 ^ 32) by lia.
    by rewrite Z.mod_add by lia.
  - rewrite <- js_lt_high_half in Hnot. rewrite Hdiv in Hnot.
    unfold js_lt, of_Z, inject_Z in Hnot. cbn [Qnum Qden] in Hnot.
    destruct (Z.ltb_spec (VAL32 * Z.pos (d * 4294967296)) (Z.abs a * 1)) as [|Hle];
      [done|].
    rewrite Pos2Z.inj_mul in Hle. change VAL32 with (2 ^ 32) in Hle.
    change (Z.pos 4294967296) with (2 ^ 32) in Hle.
    apply Z.div_le_upper_bound; [lia|].
    change (2 ^ 64) with (2 ^ 32 * 2 ^ 32). lia.
Qed.

Lemma abs_quot (a : Z) (d : positive) : Z.abs (Z.quot a (Z.pos d)) = Z.abs a / Z.pos d.
Proof.
  destruct (Z.le_gt_cases 0 a).
  - rewrite !Z.abs_eq; [by rewrite Z.quot_div_nonneg by lia | lia |].
    apply Z.quot_pos; lia.
  - rewrite <- (Z.opp_involutive a) at 1. rewrite Z.quot_opp_l by lia.
    rewrite Z.abs_opp, (Z.abs_neq a) by lia.
    rewrite Z.abs_eq by (apply Z.quot_pos; lia).
    by rewrite Z.quot_div_nonneg by lia.
Qed.

(** X22: the numeric path truncates towards zero: a finite number whose
    high half does not exceed 2^32 constructs the very Int64 that its integer
    part constructs. *)
Theorem number_fraction_truncated (mem : nat → Z) (h : heap) (q : Q) :
  ¬ high_half_exceeds (Num q) →
  Int64_new mem h (NewValue (Args1 (VNumber (Num q))))
  = Int64_new mem h (NewValue (Args1 (VNumber (of_Z (Qtrunc q))))).
Proof.
  destruct q as [a d]. intros Hnot.
  destruct (setValue_args_fraction a d Hnot) as (hi & lo & Hargs & Hhi & Hlo & Hmax).
  set (m := Qtrunc (a # d)).
  assert (Hm : Z.abs m = Z.abs a / Z.pos d) by apply abs_quot.
  assert (Hnot' : ¬ high_half_exceeds (Num (m # 1))).
  { intros Hex. apply (high_half_exceeds_integer m) in Hex. lia. }
  destruct (setValue_args_fraction m 1 Hnot') as (hi' & lo' & Hargs' & Hhi' & Hlo' & _).
  rewrite Z.div_1_r, Hm in Hhi', Hlo'.
  change (of_Z m) with (Num (m # 1)).
  rewrite (Int64_new_value mem h _ _ _ _ Hargs).
  rewrite (Int64_new_value mem h _ _ _ _ Hargs').
  cut (stored_octets (a <? 0) hi lo = stored_octets (m <? 0) hi' lo');
    [by intros -> |].
  clear Hargs Hargs'.
  destruct (Z.ltb_spec a 0) as [Hneg|Hpos], (Z.ltb_spec m 0) as [Hmneg|Hmpos].
  - apply stored_octets_ext; congruence.
  - assert (Hz : Z.abs a / Z.pos d = 0).
    { rewrite <- Hm. subst m. unfold Qtrunc in *. cbn [Qnum Qden] in *.
      assert (Z.quot a (Z.pos d) ≤ 0) by (apply Z.quot_le_upper_bound; lia). lia. }
    rewrite Hz in *. change (0 / 2 ^ 32 mod 2 ^ 32) with 0 in *.
    change (0 mod 2 ^ 32) with 0 in *.
    by rewrite !stored_octets_zero.
  - exfalso. subst m. unfold Qtrunc in Hmneg. cbn [Qnum Qden] in Hmneg.
    pose proof (Z.quot_pos a (Z.pos d)). lia.
  - apply stored_octets_ext; congruence.
Qed.

Lemma number_fraction_truncated_witness :
  ¬ high_half_exceeds (Num (-7 # 2))
  ∧ Int64_new (λ _, 0) ∅ (NewValue (Args1 (VNumber (Num (-7 # 2)))))
    = Int64_new (λ _, 0) ∅ (NewValue (Args1 (VNumber (of_Z (-3))))).
Proof.
  assert (Hnot : ¬ high_half_exceeds (Num (-7 # 2))) by (vm_compute; discriminate).
  split; [exact Hnot|]. exact (number_fraction_truncated (λ _, 0) ∅ (-7 # 2) Hnot).
Defined.

(** ** Writing through a view *)

(** X23: a view writes through to the caller's Buffer: after constructing
    a view at an offset where eight octets fit and a successful [setValue]
    through it, the caller's Buffer holds its old octets before the offset,
    eight new octets, and its old octets after them. *)
Theorem view_writes_through
    (mem : nat → Z) (h h' : heap) (a1 : loc) (o : Z) (b : list Z) (args : arguments) :
  h !! a1 = Some b → 0 ≤ o → o + 8 ≤ Z.of_nat (length b) →
  ∃ this,
    Int64_new mem h (NewView a1 (Some o)) = Normal (h, this)
    ∧ (setValue h this args = Normal h' →
       ∃ written,
         length written = 8%nat ∧ octets written
         ∧ h' = <[a1 := take (Z.to_nat o) b ++ written ++ drop (Z.to_nat o + 8) b]> h).
Proof.
  intros Hh Ho Hlen. eexists. split; [reflexivity|]. cbn [default from_option]. unfold id.
  intros Hset.
  destruct (setValue_in_bounds h {| buffer := a1; offset := o |} args b Hh Ho Hlen)
    as (pre & post & Hpre & Hb & E).
  rewrite Hset in E. destruct (setValue_args args) as [[[negate hi] lo]|e]; [|discriminate].
  injection E as ->. cbn [buffer offset] in *.
  exists (stored_octets negate hi lo).
  split; [apply length_stored_octets|]. split; [apply octets_stored_octets|].
  assert (Hmid : length (region b o) = 8%nat) by by apply length_region.
  assert (Htake : take (length pre) (pre ++ region b o ++ post) = pre)
    by apply take_app_length.
  assert (Hdrop : drop (length pre + 8) (pre ++ region b o ++ post) = post).
  { rewrite <- drop_drop, drop_app_length. rewrite <- Hmid. apply drop_app_length. }
  rewrite <- Hb, Hpre in Htake, Hdrop. by rewrite Htake, Hdrop.
Qed.

Lemma view_writes_through_witness :
  let b := [1; 2; 3; 4; 5; 6; 7; 8; 9; 10; 11] in
  let h : heap := {[ 4%positive := b ]} in
  let h' : heap := {[ 4%positive := [1; 2; 0; 0; 0; 0; 0; 0; 1; 0; 11] ]} in
  let args := Args1 (VNumber (of_Z 256)) in
  h !! 4%positive = Some b ∧ 0 ≤ 2 ∧ 2 + 8 ≤ Z.of_nat (length b)
  ∧ ∃ this,
      Int64_new (λ _, 0) h (NewView 4%positive (Some 2)) = Normal (h, this)
      ∧ (setValue h this args = Normal h' →
         ∃ written,
           length written = 8%nat ∧ octets written
           ∧ h' = <[4%positive := take (Z.to_nat 2) b ++ written ++ drop (Z.to_nat 2 + 8) b]> h).
Proof.
  intros b h h' args.
  assert (Hh : h !! 4%positive = Some b) by reflexivity.
  assert (Ho : 0 ≤ 2) by lia.
  assert (Hlen : 2 + 8 ≤ Z.of_nat (length b)) by (simpl; lia).
  repeat (split; [assumption|]).
  exact (view_writes_through (λ _, 0) h h' 4%positive 2 b args Hh Ho Hlen).
Defined.

(** X24: negating in place negates the number: for an Int64 whose eight
    octets start at index 0 of its Buffer and read as an integer [z],
    [valueOf] after [_2scomp] is [-z]. *)
Theorem twos_complement_then_valueOf (h : heap) (this : Int64) (b : list Z) (z : Z) :
  h !! buffer this = Some b → offset this = 0 →
  (8 ≤ length b)%nat → octets b →
  valueOf h this = of_Z z →
  valueOf (_2scomp h this) this = of_Z (- z).
Proof.
  intros Hh Ho Hlen Hoct Hv.
  assert (Hb : b = [] ++ take 8 b ++ drop 8 b) by by rewrite take_drop.
  assert (Hmid : length (take 8 b) = 8%nat) by (rewrite length_take; lia).
  assert (Hmo : octets (take 8 b)) by by apply Forall_take.
  rewrite (valueOf_at_offset_0 h this (take 8 b) (drop 8 b)) in Hv
    by (done || by rewrite take_drop).
  assert (H2 : _2scomp h this
    = <[buffer this := reverse (comp 1 (reverse (take 8 b))) ++ drop 8 b]> h).
  { unfold _2scomp. apply map_eq. intros l.
    destruct (decide (l = buffer this)) as [-> | Hne].
    - rewrite lookup_alter_eq, lookup_insert_eq, Hh, Ho. cbn.
      pose proof (_2scomp_buf_region [] (take 8 b) (drop 8 b) Hmid) as E.
      cbn [app length] in E. change (Z.of_nat 0) with 0 in E.
      rewrite take_drop in E. by rewrite E.
    - by rewrite lookup_alter_ne, lookup_insert_ne. }
  assert (Hmo' : octets (reverse (comp 1 (reverse (take 8 b))))).
  { apply octets_reverse. apply comp_twice; [by apply octets_reverse | by right]. }
  rewrite H2.
  rewrite (valueOf_at_offset_0 _ this (reverse (comp 1 (reverse (take 8 b)))) (drop 8 b));
    [| apply lookup_insert_eq | done
     | by rewrite length_reverse, length_comp, length_reverse | done].
  cbn zeta in *. unfold int64_value in *.
  rewrite be_value_reverse, comp_value_8 by (by apply octets_reverse || by rewrite length_reverse).
  fold (be_value (take 8 b)).
  pose proof (be_value_range (take 8 b) Hmid Hmo) as Hr.
  unfold MAX_INT in *.
  set (u := be_value (take 8 b)) in *.
  destruct (Z.leb_spec (2 ^ 63) u).
  - destruct (Z.leb_spec (2 ^ 53) (Z.abs (u - 2 ^ 64))); [discriminate|].
    apply of_Z_inj in Hv. subst z.
    rewrite Z.mod_small by lia.
    destruct (Z.leb_spec (2 ^ 63) (2 ^ 64 - u)); [lia|].
    destruct (Z.leb_spec (2 ^ 53) (Z.abs (2 ^ 64 - u))); [lia|]. f_equal. f_equal. lia.
  - destruct (Z.leb_spec (2 ^ 53) (Z.abs u)); [discriminate|].
    apply of_Z_inj in Hv. subst z.
    destruct (Z.eq_dec u 0) as [-> | Hnz]; [reflexivity|].
    rewrite Z.mod_small by lia.
    destruct (Z.leb_spec (2 ^ 63) (2 ^ 64 - u)); [|lia].
    destruct (Z.leb_spec (2 ^ 53) (Z.abs (2 ^ 64 - u - 2 ^ 64))); [lia|].
    f_equal. f_equal. lia.
Qed.

Lemma twos_complement_then_valueOf_witness :
  let b := [0; 0; 0; 0; 0; 0; 0; 42] in
  let h : heap := {[ 1%positive := b ]} in
  let this := {| buffer := 1%positive; offset := 0 |} in
  h !! buffer this = Some b ∧ offset this = 0
  ∧ (8 ≤ length b)%nat ∧ octets b
  ∧ valueOf h this = of_Z 42
  ∧ valueOf (_2scomp h this) this = of_Z (- 42).
Proof.
  intros b h this.
  assert (Hh : h !! buffer this = Some b) by reflexivity.
  assert (Ho : offset this = 0) by reflexivity.
  assert (Hlen : (8 ≤ length b)%nat) by (simpl; lia).
  assert (Hb : octets b) by (repeat constructor; unfold octet; lia).
  assert (Hv : valueOf h this = of_Z 42) by (vm_compute; reflexivity).
  repeat (split; [assumption|]).
  exact (twos_complement_then_valueOf h this b 42 Hh Ho Hlen Hb Hv).
Defined.

(** ** The table [_HEX] *)

(** X25: the table [_HEX] has one entry for each octet: two lower-case
    radix-16 digits that [parseInt] reads back as the octet. *)
Theorem HEX_table_entries :
  length _HEX = 256%nat
  ∧ ∀ v, octet v →
      ∃ s, _HEX !! Z.to_nat v = Some s
           ∧ String.length s = 2%nat
           ∧ toLowerCase s = s
           ∧ parseInt16 s = of_Z v.
Proof.
  split; [reflexivity|]. intros v Hv.
  pose (f v := match _HEX !! Z.to_nat v with
               | Some s => Nat.eqb (String.length s) 2
                           && String.eqb (toLowerCase s) s
                           && match parseInt16 s with
                              | Num (n # d) => (n =? v) && (Z.pos d =? 1)
                              | _ => false
                              end
               | None => false
               end).
  assert (Hf : f v = true) by (revert v Hv; apply octet_cases; vm_compute; reflexivity).
  unfold f in Hf. destruct (_HEX !! Z.to_nat v) as [s|]; [|discriminate].
  exists s. apply andb_prop in Hf as [Hf Hp]. apply andb_prop in Hf as [Hl Hlow].
  apply Nat.eqb_eq in Hl. apply String.eqb_eq in Hlow.
  split; [done|]. split; [done|]. split; [done|].
  destruct (parseInt16 s) as [| |[n d]]; try discriminate.
  apply andb_prop in Hp as [Hn Hd]. apply Z.eqb_eq in Hn, Hd. injection Hd as ->.
  by subst n.
Qed.

Lemma HEX_table_entries_witness :
  octet 0xab
  ∧ ∃ s, _HEX !! Z.to_nat 0xab = Some s
         ∧ String.length s = 2%nat
         ∧ toLowerCase s = s
         ∧ parseInt16 s = of_Z 0xab.
Proof.
  assert (Hv : octet 0xab) by (unfold octet; lia).
  split; [assumption|].
  exact (proj2 HEX_table_entries 0xab Hv).
Defined.
